(** * LLMService: graded-relevance judging and the Expected Utility score

    A shallow embedding of the evaluation service (class [LLMService]):
    the metrics engine ([gain], [expectedUtilityOutOf10], [computeMetrics]),
    the score extractor ([extractScore]), the dataset scorer ([scoreOne],
    [scoreDataset]) and the orchestrator ([evaluateSearchResults]).

    Conventions of the embedding.
    - A JavaScript [number] that holds a grade, an index or a counter is an
      integer ([Z] or [nat]).  A [number] that holds a weight, a score or a
      duration is an exact rational ([Q]): the arithmetic of the source is
      read without rounding, and equality of scores is [Qeq].
    - A JavaScript string is the list of its UTF-16 code units.
    - The judge ([generateText]) is an arbitrary function of the prompts
      sent so far and of the current prompt; it either returns a text or
      throws, and reports the time the call took.
    - [dcgAt] and [ndcgAt] are not embedded: [computeMetrics] no longer
      calls them, and their logarithms have no exact rational value.

    The result lists the service receives come from the search providers;
    the pure parts of two of them are embedded as well: the deduplication
    by URL of the Upstash provider ([deduplicateByUrl], [search]) and, of the
    Mixedbread provider, the deduplication by file and the URL of a chunk.
    Their network calls and [slugify] are inputs of the model. *)

From Stdlib Require Import ZArith QArith Qpower Qround Qabs Lqa Lia List String Ascii DecimalString.
From stdpp Require Import base list gmap.

Local Open Scope Z_scope.

(** ** Constants of the class *)

Definition MAX_PASSAGE_CHARS : nat := 4000.
Definition MAX_TITLE_CHARS : nat := 200.
Definition EVAL_DEPTH : nat := 10.
Definition EU_ALPHA : Q := 9 # 10.

(** ** Metrics engine *)

(** [Math.pow(2, rel) - 1] *)
Definition gain (rel : Z) : Q := (2 ^ rel - 1)%Q.

(** The [for] loop of [expectedUtilityOutOf10]: [fuel] is [L - i], the
    accumulators are [num] and [denomP]; [scores[i] ?? 0] reads 0 past the
    end of the array.  The sums, products and the quotient are exact here
    and rounded to binary64 in the source, so the two agree up to rounding
    only; the statements below are made for the call the service makes,
    [alpha = 0.9] and [L = 10] on grades 0..3. *)
Fixpoint eu_loop (scores : list Z) (alpha : Q) (fuel i : nat) (num denomP : Q)
  : Q * Q :=
  match fuel with
  | O => (num, denomP)
  | S fuel' =>
      let p := (alpha ^ Z.of_nat i)%Q in
      let rel := default 0 (scores !! i) in
      eu_loop scores alpha fuel' (S i) (num + p * gain rel)%Q (denomP + p)%Q
  end.

Definition expectedUtilityOutOf10 (scores : list Z) (alpha : Q) (L : nat) : Q :=
  let '(num, denomP) := eu_loop scores alpha L 0 0%Q 0%Q in
  let denom := (denomP * gain 3)%Q in
  if Qlt_le_dec 0 denom then ((num / denom) * 10)%Q else 0%Q.

Record Metrics := { nEU : Q }.

Definition computeMetrics (scores pooled : list Z) : Metrics :=
  {| nEU := expectedUtilityOutOf10 scores EU_ALPHA EVAL_DEPTH |}.

(** The formula of the specification, term by term:
    [ Σ_{i<L} α^i · gain(scores[i] or 0) ] / [ (Σ_{i<L} α^i) · gain(3) ] × 10. *)
Definition Qsum (f : nat -> Q) (l : list nat) : Q :=
  foldr (fun i acc => (f i + acc)%Q) 0%Q l.

Definition grade_at (scores : list Z) (i : nat) : Z := default 0 (scores !! i).

Definition weight (alpha : Q) (i : nat) : Q := (alpha ^ Z.of_nat i)%Q.

Definition EU_formula (scores : list Z) (alpha : Q) (L : nat) : Q :=
  (Qsum (fun i => weight alpha i * gain (grade_at scores i)) (seq 0 L)
   / (Qsum (weight alpha) (seq 0 L) * gain 3) * 10)%Q.

(** The term of the numerator at position [i]. *)
Definition gains (scores : list Z) (alpha : Q) (i : nat) : Q :=
  (weight alpha i * gain (grade_at scores i))%Q.

(** The score the service reports for a grade sequence. *)
Definition EU (scores : list Z) : Q :=
  expectedUtilityOutOf10 scores EU_ALPHA EVAL_DEPTH.

Definition all_three (scores : list Z) : bool := forallb (Z.eqb 3) scores.

(** Grades are the integers 0, 1, 2, 3. *)
Definition is_grade (g : Z) : bool := (0 <=? g) && (g <=? 3).
Definition grades (scores : list Z) : bool := forallb is_grade scores.

(** ** Strings

    A string is the list of its UTF-16 code units; [length] is the
    [.length] of the source. *)

Definition char16 := N.
Definition jsstring := list char16.

(** A literal of the source, written with its ASCII characters. *)
Fixpoint lit (s : String.string) : jsstring :=
  match s with
  | String.EmptyString => []
  | String.String c s' => N_of_ascii c :: lit s'
  end.

Definition LF : jsstring := [10%N].

(** ECMAScript [WhiteSpace]: TAB, VT, FF, SP, NBSP, ZWNBSP and the
    Unicode space separators. *)
Definition is_white_space (c : char16) : bool :=
  ((c =? 9) || (c =? 11) || (c =? 12) || (c =? 32) || (c =? 160)
   || (c =? 5760) || ((8192 <=? c) && (c <=? 8202)) || (c =? 8239)
   || (c =? 8287) || (c =? 12288) || (c =? 65279))%N.

(** ECMAScript [LineTerminator]: LF, CR, LS, PS. *)
Definition is_line_terminator (c : char16) : bool :=
  ((c =? 10) || (c =? 13) || (c =? 8232) || (c =? 8233))%N.

(** The class [\s], also what [trim] strips. *)
Definition is_space (c : char16) : bool :=
  is_white_space c || is_line_terminator c.

(** The class [\w]: [A-Za-z0-9_]. *)
Definition is_word_char (c : char16) : bool :=
  (((65 <=? c) && (c <=? 90)) || ((97 <=? c) && (c <=? 122))
   || ((48 <=? c) && (c <=? 57)) || (c =? 95))%N.

(** [Canonicalize] under flag [i] without flag [u], as far as a comparison
    with an ASCII pattern character can tell: a code unit of 128 or more
    never canonicalises to an ASCII one, so only ASCII letters are folded. *)
Definition canonicalize (c : char16) : char16 :=
  (if (97 <=? c) && (c <=? 122) then c - 32 else c)%N.

(** [String.prototype.trim]: strips [WhiteSpace] and [LineTerminator] code
    units at both ends. *)
Fixpoint trim_start (s : jsstring) : jsstring :=
  match s with
  | c :: s' => if is_space c then trim_start s' else s
  | [] => []
  end.

Definition trim (s : jsstring) : jsstring :=
  reverse (trim_start (reverse (trim_start s))).

(** [s.startsWith(p)] *)
Fixpoint startsWith (s p : jsstring) {struct p} : bool :=
  match p, s with
  | [], _ => true
  | _ :: _, [] => false
  | x :: p', y :: s' => (x =? y)%N && startsWith s' p'
  end.

(** [truncate(s, max)] *)
Definition truncate (s : jsstring) (max : nat) : jsstring :=
  match s with
  | [] => []
  | _ => if (length s <=? max)%nat then s else take max s
  end.

(** ** Regular expressions

    The two patterns of the class are built from four kinds of node.  The
    matcher is the backtracking one of ECMAScript: [\s*] is greedy and
    gives characters back when the rest of the pattern fails. *)

Inductive node :=
| Lit (c : char16)      (* a pattern character, compared after Canonicalize *)
| SpaceStar             (* \s* *)
| Group03               (* ([0-3]), capture group 1 *)
| WordBoundary.         (* \b *)

Definition is_word (o : option char16) : bool :=
  match o with Some c => is_word_char c | None => false end.

(** [match_nodes pat prev s cap]: match [pat] against a prefix of [s], where
    [prev] is the code unit before [s] and [cap] the capture so far; the
    result is capture group 1 of the match. *)
Fixpoint match_nodes (pat : list node)
  : option char16 -> jsstring -> jsstring -> option jsstring :=
  match pat with
  | [] => fun _ _ cap => Some cap
  | nd :: pat' =>
      let k := match_nodes pat' in
      match nd with
      | Lit c => fun _ s cap =>
          match s with
          | x :: s' =>
              if (canonicalize x =? canonicalize c)%N then k (Some x) s' cap
              else None
          | [] => None
          end
      | SpaceStar =>
          fix star (prev : option char16) (s cap : jsstring) : option jsstring :=
            match s with
            | x :: s' =>
                if is_space x then
                  match star (Some x) s' cap with
                  | Some r => Some r
                  | None => k prev s cap
                  end
                else k prev s cap
            | [] => k prev s cap
            end
      | Group03 => fun _ s _ =>
          match s with
          | x :: s' =>
              if ((48 <=? x) && (x <=? 51))%N then k (Some x) s' [x] else None
          | [] => None
          end
      | WordBoundary => fun prev s cap =>
          if xorb (is_word prev) (is_word (head s)) then k prev s cap else None
      end
  end.

(** [re.exec(s)] for a pattern without flag [g]: the match at the least
    start index, and of it capture group 1. *)
Fixpoint exec_from (pat : list node) (prev : option char16) (s : jsstring)
  : option jsstring :=
  match match_nodes pat prev s [] with
  | Some cap => Some cap
  | None =>
      match s with
      | [] => None
      | c :: s' => exec_from pat (Some c) s'
      end
  end.

Definition exec (pat : list node) (s : jsstring) : option jsstring :=
  exec_from pat None s.

Definition lits (s : String.string) : list node := map Lit (lit s).

(** [/##\s*final\s*score\s*:\s*([0-3])\b/i] *)
Definition score_pattern : list node :=
  lits "##" ++ [SpaceStar] ++ lits "final" ++ [SpaceStar] ++ lits "score"
  ++ [SpaceStar] ++ lits ":" ++ [SpaceStar] ++ [Group03; WordBoundary].

(** [/^##/m.test(s)]: some line of [s] starts with [##]. *)
Fixpoint test_line_hashes (at_line_start : bool) (s : jsstring) : bool :=
  (at_line_start && startsWith s (lit "##"))
  || match s with
     | [] => false
     | c :: s' => test_line_hashes (is_line_terminator c) s'
     end.

(** [parseInt(s, 10)]; [None] is [NaN]. *)
Definition digit_val (c : char16) : option Z :=
  if ((48 <=? c) && (c <=? 57))%N then Some (Z.of_N c - 48) else None.

Fixpoint parse_digits (acc : option Z) (s : jsstring) : option Z :=
  match s with
  | c :: s' =>
      match digit_val c with
      | Some d => parse_digits (Some (10 * default 0 acc + d)) s'
      | None => acc
      end
  | [] => acc
  end.

Definition parseInt10 (s : jsstring) : option Z :=
  match trim_start s with
  | c :: s' =>
      if (c =? 45)%N then Z.opp <$> parse_digits None s'
      else if (c =? 43)%N then parse_digits None s'
      else parse_digits None (c :: s')
  | [] => None
  end.

(** ** Score extractor *)

Definition PARSE_FAILURE : Z := -1.

Definition extractScore (rawText : jsstring) : Z :=
  match exec score_pattern rawText with
  | None => -1
  | Some m1 =>
      match parseInt10 m1 with
      | None => -1
      | Some n => if (n <? 0) || (n >? 3) then -1 else n
      end
  end.

(** ** Passages and the prompt *)

(** The fields of a [SearchResult] the service reads.  A field is [None]
    when it is [undefined] at run time. *)
Record SearchResult := {
  title : option jsstring;
  description : option jsstring;
  url : option jsstring;
}.

(** [x || dflt] on a possibly undefined string: the empty string is falsy. *)
Definition or_else (x : option jsstring) (dflt : jsstring) : jsstring :=
  match x with
  | Some (c :: s) => c :: s
  | _ => dflt
  end.

Definition formatPassage (r : SearchResult) : jsstring :=
  let title := truncate (or_else (title r) (lit "Untitled")) MAX_TITLE_CHARS in
  let desc := truncate (or_else (description r) []) MAX_PASSAGE_CHARS in
  let url :=
    match url r with
    | Some (c :: u) => LF ++ lit "URL: " ++ c :: u
    | _ => []
    end in
  trim (lit "Title: " ++ title ++ LF ++ lit " Description: " ++ desc
        ++ LF ++ lit " URL: " ++ url).

Definition umbrelaPrompt (query passage : jsstring) : jsstring :=
  lit "Given a query and a passage, you must provide a score on an integer scale of 0 to 3 with the following meanings:" ++ LF ++
  lit "0 = represent that the passage has nothing to do with the query, " ++ LF ++
  lit "1 = represents that the passage seems related to the query but does not answer it, " ++ LF ++
  lit "2 = represents that the passage has some answer for the query, but the answer may be a bit unclear, or hidden amongst extraneous information and " ++ LF ++
  lit "3 = represents that the passage is dedicated to the query and contains the exact answer." ++ LF ++ LF ++
  lit "Important Instruction: Assign category 1 if the passage is somewhat related to the topic but not completely, category 2 if passage presents something very important related to the entire topic but also has some extra information and category 3 if the passage only and entirely refers to the topic. If none of the above satisfies give it category 0." ++ LF ++ LF ++
  lit "Query: " ++ query ++ LF ++
  lit "Passage: " ++ passage ++ LF ++ LF ++
  lit "Split this problem into steps:" ++ LF ++
  lit "Consider the underlying intent of the search." ++ LF ++
  lit "Measure how well the content matches a likely intent of the query (M)." ++ LF ++
  lit "Measure how trustworthy the passage is (T)." ++ LF ++
  lit "Consider the aspects above and the relative importance of each, and decide on a final score (O). Final score must be an integer value only." ++ LF ++
  lit "Do not provide any code in result. Provide each score in the format of: ##final score: score without providing any reasoning." ++ LF.

(** ** The judge and the monad of judge calls *)

(** What [await generateText(...)] does: it resolves to a result whose
    [text] may be undefined, or it rejects with an error [err], kept as
    [String(err)]. *)
Inductive GenOutcome :=
| Resolved (text : option jsstring)
| Rejected (err : jsstring).

(** The state threaded through the service is the log of the prompts sent
    to the judge, oldest first. *)
Definition Judged (A : Type) : Type := list jsstring -> A * list jsstring.

#[global] Instance Judged_ret : MRet Judged := fun A a log => (a, log).

#[global] Instance Judged_bind : MBind Judged := fun A B f m log =>
  let '(a, log') := m log in f a log'.

Record ScoreOne := {
  score : Z;
  raw : jsstring;
  durationMs : Q;
}.

Record PerDoc := { index : nat; pd_score : Z }.

Record DatasetScore := {
  total : Z;
  counts : gmap Z Z;
  errors : Z;
  ds_durationMs : Q;
  perDoc : list PerDoc;
}.

Record EvaluationResult := { er_score : Q; feedback : jsstring }.

Record Evaluation := {
  db1 : EvaluationResult;
  db2 : EvaluationResult;
  llmDuration : Q;
}.

Section Judge.

(** [generateText log prompt]: the outcome of the call made with [prompt]
    after the calls of [log], and the time between the two clock reads
    that surround it. *)
Variable generateText : list jsstring -> jsstring -> GenOutcome * Q.

Definition callJudge (prompt : jsstring) : Judged (GenOutcome * Q) :=
  fun log => (generateText log prompt, log ++ [prompt]).

Definition scoreOne (query passage : jsstring) : Judged ScoreOne :=
  let prompt := umbrelaPrompt query passage in
  '(out, elapsed) ← callJudge prompt;
  match out with
  | Rejected err =>
      mret {| score := 0; raw := lit "ERR:" ++ err; durationMs := elapsed |}
  | Resolved result =>
      let text := or_else result [] in
      let score := extractScore text in
      let score := if score =? -1 then 0 else score in
      mret {| score := score; raw := text; durationMs := elapsed |}
  end.

(** One iteration of the loop of [scoreDataset], on item [r] at index [i]. *)
Definition scoreDataset_step (query : jsstring) (i : nat) (r : SearchResult)
    (acc : DatasetScore) : Judged DatasetScore :=
  let passage := truncate (formatPassage r) MAX_PASSAGE_CHARS in
  one ← scoreOne query passage;
  let durationMs' := (ds_durationMs acc + durationMs one)%Q in
  let errors' :=
    if startsWith (raw one) (lit "ERR:") || negb (test_line_hashes true (raw one))
    then (if startsWith (raw one) (lit "ERR:") then errors acc + 1 else errors acc)
    else errors acc in
  let s := if (score one <? 0) || (score one >? 3) then 0 else score one in
  mret {| total := total acc + s;
         counts := <[s := default 0 (counts acc !! s) + 1]> (counts acc);
         errors := errors';
         ds_durationMs := durationMs';
         perDoc := perDoc acc ++ [{| index := i; pd_score := s |}] |}.

(** The loop [for (let i = 0; i < capped.length; i++)], entered at index
    [i] with the items from [i] on still to do. *)
Fixpoint scoreDataset_loop (query : jsstring) (i : nat)
    (todo : list SearchResult) (acc : DatasetScore) : Judged DatasetScore :=
  match todo with
  | [] => mret acc
  | r :: todo' =>
      acc' ← scoreDataset_step query i r acc;
      scoreDataset_loop query (S i) todo' acc'
  end.

Definition scoreDataset (query : jsstring) (results : list SearchResult)
  : Judged DatasetScore :=
  let init :=
    {| total := 0;
       counts := <[0 := 0]> (<[1 := 0]> (<[2 := 0]> (<[3 := 0]> ∅)));
       errors := 0;
       ds_durationMs := 0%Q;
       perDoc := [] |} in
  let capped := take EVAL_DEPTH results in
  scoreDataset_loop query 0 capped init.

(** ** Orchestrator *)

(** [Array.prototype.sort(cmp)]: a stable sort; [insert_sorted] puts [x]
    before the first element it does not compare greater than. *)
Fixpoint insert_sorted {A} (cmp : A -> A -> Z) (x : A) (l : list A) : list A :=
  match l with
  | [] => [x]
  | y :: l' => if cmp x y <=? 0 then x :: y :: l' else y :: insert_sorted cmp x l'
  end.

Definition sort {A} (cmp : A -> A -> Z) (l : list A) : list A :=
  foldr (insert_sorted cmp) [] l.

(** A template hole [${n}] holding an integer. *)
Definition show_int (n : Z) : jsstring :=
  lit (NilZero.string_of_int (Z.to_int n)).

(** [x.toFixed(3)], for [|x| < 10^21]: the integer nearest to [1000 x]
    (the larger one on a tie), written with three decimals. *)
Definition toFixed3 (x : Q) : jsstring :=
  let sign := if Qlt_le_dec x 0 then lit "-" else [] in
  let n := Qfloor (Qabs x * 1000 + (1 # 2)) in
  let m := show_int n in
  let m := replicate (4 - length m) 48%N ++ m in
  let k := length m in
  sign ++ take (k - 3) m ++ lit "." ++ drop (k - 3) m.

(** [parts.join(sep)] *)
Fixpoint join (sep : jsstring) (parts : list jsstring) : jsstring :=
  match parts with
  | [] => []
  | [p] => p
  | p :: rest => p ++ sep ++ join sep rest
  end.

Definition EM_DASH : jsstring := [8212%N].
Definition STAR : jsstring := [9733%N].

Definition count_of (agg : DatasetScore) (g : Z) : Z :=
  default 0 (counts agg !! g).

Definition makeFeedback (agg : DatasetScore) (dbIndex : Z)
    (metrics : option Metrics) : jsstring :=
  let n := foldl Z.add 0 (map snd (map_to_list (counts agg))) in
  let parts :=
    [lit "DB " ++ show_int dbIndex ++ lit ": " ++ show_int n
     ++ lit " docs scored (top " ++ show_int (Z.of_nat EVAL_DEPTH)
     ++ lit "). Total label sum: " ++ show_int (total agg) ++ lit "."] in
  let parts := parts ++
    [lit "Breakdown " ++ EM_DASH ++ lit " 3" ++ STAR ++ lit ": "
     ++ show_int (count_of agg 3) ++ lit ", 2" ++ STAR ++ lit ": "
     ++ show_int (count_of agg 2) ++ lit ", 1" ++ STAR ++ lit ": "
     ++ show_int (count_of agg 1) ++ lit ", 0" ++ STAR ++ lit ": "
     ++ show_int (count_of agg 0) ++ lit "."] in
  let parts :=
    match metrics with
    | Some m => parts ++ [lit "Score: " ++ toFixed3 (nEU m) ++ lit "."]
    | None => parts
    end in
  let parts :=
    if errors agg >? 0 then
      parts ++ [lit "Note: " ++ show_int (errors agg)
                ++ lit " chunk(s) failed to parse or errored and were counted as 0."]
    else parts in
  join (lit " ") parts.

Definition fallback : Evaluation :=
  {| db1 := {| er_score := -1; feedback := [] |};
     db2 := {| er_score := -1; feedback := [] |};
     llmDuration := 0 |}.

(** The per-rank labels of a scored dataset:
    [perDoc.sort((a, b) => a.index - b.index).map(x => x.score).slice(0, EVAL_DEPTH)]. *)
Definition labels (d : DatasetScore) : list Z :=
  take EVAL_DEPTH
    (map pd_score
       (sort (fun a b => Z.of_nat (index a) - Z.of_nat (index b)) (perDoc d))).

(** The service object: [hasApiKey] is set by the constructor from the
    environment variable [AI_GATEWAY_API_KEY]. *)
Record LLMService := { hasApiKey : bool }.

Definition new_LLMService (AI_GATEWAY_API_KEY : option jsstring) : LLMService :=
  {| hasApiKey := match or_else AI_GATEWAY_API_KEY [] with [] => false | _ => true end |}.

Definition evaluateSearchResults (this : LLMService) (query : jsstring)
    (results1 results2 : list SearchResult) : Judged Evaluation :=
  if negb (hasApiKey this) then mret fallback
  else
    let top1 := take EVAL_DEPTH results1 in
    let top2 := take EVAL_DEPTH results2 in
    d1 ← scoreDataset query top1;
    d2 ← scoreDataset query top2;
    let llmDuration := (ds_durationMs d1 + ds_durationMs d2)%Q in
    let s1 := labels d1 in
    let s2 := labels d2 in
    let pooled := s1 ++ s2 in
    let m1 := computeMetrics s1 pooled in
    let m2 := computeMetrics s2 pooled in
    mret {| db1 := {| er_score := nEU m1; feedback := makeFeedback d1 1 (Some m1) |};
            db2 := {| er_score := nEU m2; feedback := makeFeedback d2 2 (Some m2) |};
            llmDuration := llmDuration |}.

End Judge.

(** ** Vocabulary of the statements *)

(** The code unit before the rest of the text, once [t] has been read. *)
Definition prev_after (prev : option char16) (t : jsstring) : option char16 :=
  match last t with Some c => Some c | None => prev end.

(** A pattern that cannot start on white space. *)
Definition rejects_space (pat : list node) : Prop :=
  forall prev x s cap, is_space x = true -> match_nodes pat prev (x :: s) cap = None.

(** The passage sent for an item, and the prompt that carries it. *)
Definition passage_of (r : SearchResult) : jsstring :=
  truncate (formatPassage r) MAX_PASSAGE_CHARS.

Definition prompt_of (query : jsstring) (r : SearchResult) : jsstring :=
  umbrelaPrompt query (passage_of r).

(** The judgements [scoreOne] returns along a run over [todo] that starts
    with the log [log]. *)
Fixpoint judgements (generateText : list jsstring -> jsstring -> GenOutcome * Q)
    (query : jsstring) (todo : list SearchResult) (log : list jsstring)
  : list ScoreOne :=
  match todo with
  | [] => []
  | r :: todo' =>
      let '(one, log') := scoreOne generateText query (passage_of r) log in
      one :: judgements generateText query todo' log'
  end.

(** The raw output carries the failure sentinel. *)
Definition has_sentinel (one : ScoreOne) : bool := startsWith (raw one) (lit "ERR:").

(** The number of judgements that carry it. *)
Fixpoint count_sentinels (js : list ScoreOne) : Z :=
  match js with
  | [] => 0
  | one :: js' => (if has_sentinel one then 1 else 0) + count_sentinels js'
  end.

(** The grade recorded for a judgement: [(score < 0 || score > 3) ? 0 : score]. *)
Definition recorded (one : ScoreOne) : Z :=
  if (score one <? 0) || (score one >? 3) then 0 else score one.

(** The [perDoc] entries of a run of judgements whose first index is [i]. *)
Definition entries (i : nat) (js : list ScoreOne) : list PerDoc :=
  imap (fun k one => {| index := i + k; pd_score := recorded one |}) js.

(** Sample inputs: a judge whose second call throws, three results, and a
    result whose description fills the passage limit on its own. *)
Definition flaky_judge (log : list jsstring) (prompt : jsstring) : GenOutcome * Q :=
  match length log with
  | 1%nat => (Rejected (lit "Error: timeout"), 5%Q)
  | _ => (Resolved (Some (lit "##final score: 3")), 2%Q)
  end.

Definition sample_result (t : String.string) : SearchResult :=
  {| title := Some (lit t); description := Some (lit "Plans and prices.");
     url := Some (lit "https://vercel.com/pricing") |}.

Definition long_result : SearchResult :=
  {| title := Some (lit "T"); description := Some (replicate 4000 120%N);
     url := Some (lit "https://vercel.com/pricing") |}.

(** The marker of the judge's answer, piece by piece: [##], [final],
    [score], [:] and the digit, in any casing and with any white space
    between the pieces. *)
Definition spaces (w : jsstring) : bool := forallb is_space w.

Definition same_ci (a b : jsstring) : bool :=
  bool_decide (map canonicalize a = map canonicalize b).

Definition digit (g : Z) : char16 := Z.to_N (48 + g).

Definition marker_text (w1 fin w2 sco w3 w4 : jsstring) (g : Z) : jsstring :=
  lit "##" ++ w1 ++ fin ++ w2 ++ sco ++ w3 ++ lit ":" ++ w4 ++ [digit g].

Definition marker_pieces (w1 fin w2 sco w3 w4 : jsstring) : bool :=
  spaces w1 && same_ci fin (lit "final") && spaces w2
  && same_ci sco (lit "score") && spaces w3 && spaces w4.

(** What follows the digit is the end of the text or a non-word character. *)
Definition boundary (suf : jsstring) : bool := negb (is_word (head suf)).

(** No [#] occurs in the text. *)
Definition hashless (pre : jsstring) : bool := forallb (fun c => negb (c =? 35)%N) pre.

(** The text holds a marker with a grade digit and a boundary after it. *)
Definition has_marker (s : jsstring) : Prop :=
  exists pre w1 fin w2 sco w3 w4 g suf,
    s = pre ++ marker_text w1 fin w2 sco w3 w4 g ++ suf
    /\ marker_pieces w1 fin w2 sco w3 w4 = true
    /\ is_grade g = true /\ boundary suf = true.

(** A marker with a grade digit and a boundary after it starts at position
    [k] of the text. *)
Definition marker_at (s : jsstring) (k : nat) : Prop :=
  exists w1 fin w2 sco w3 w4 g suf,
    (k <= length s)%nat
    /\ drop k s = marker_text w1 fin w2 sco w3 w4 g ++ suf
    /\ marker_pieces w1 fin w2 sco w3 w4 = true
    /\ is_grade g = true /\ boundary suf = true.

(** No match of the score pattern starts inside the prefix [pre] of the
    text [pre ++ rest]. *)
Definition no_match_starts_in (pre rest : jsstring) : bool :=
  forallb
    (fun k =>
       match match_nodes score_pattern None (drop k (pre ++ rest)) [] with
       | Some _ => false
       | None => true
       end)
    (seq 0 (length pre)).

(** ** Upstash provider: one result per URL

    [deduplicateByUrl] compares results with [===], so the array holds
    references ([nat]) to result objects kept in a store [heap].  The fields
    it reads are [url] and [score]; a [score] that is [undefined] or [NaN]
    is [None]. *)

Record ScoredResult := {
  sr_result : SearchResult;
  sr_score : option Q;
}.

Section Upstash.

Variable heap : nat -> ScoredResult.

(** [result.url || ""] and [result.score || 0] *)
Definition url_of (x : nat) : jsstring := or_else (url (sr_result (heap x))) [].
Definition score_of (x : nat) : Q := default 0%Q (sr_score (heap x)).

(** One iteration of the first loop: [urlMap.set(url, result)] when the URL
    is new or the score is higher than the one kept. *)
Definition urlMap_visit (urlMap : gmap (list N) nat) (x : nat) : gmap (list N) nat :=
  match urlMap !! url_of x with
  | Some existing =>
      if Qlt_le_dec (score_of existing) (score_of x)
      then <[url_of x := x]> urlMap
      else urlMap
  | None => <[url_of x := x]> urlMap
  end.

(** The callback of [results.filter], with the set [seenUrls] it updates. *)
Fixpoint keep_first (urlMap : gmap (list N) nat) (seenUrls : gset (list N))
    (results : list nat) : list nat :=
  match results with
  | [] => []
  | x :: rest =>
      if decide (url_of x ∈ seenUrls) then keep_first urlMap seenUrls rest
      else
        match urlMap !! url_of x with
        | Some mapResult =>
            if decide (mapResult = x)
            then x :: keep_first urlMap ({[url_of x]} ∪ seenUrls) rest
            else keep_first urlMap seenUrls rest
        | None => keep_first urlMap seenUrls rest
        end
  end.

Definition deduplicateByUrl (results : list nat) : list nat :=
  let urlMap := foldl urlMap_visit ∅ results in
  keep_first urlMap ∅ results.

(** [y] is the first of the results of [l] with its URL that have the
    highest score. *)
Definition first_best (l : list nat) (y : nat) : Prop :=
  exists l1 l2,
    l = l1 ++ y :: l2
    /\ (forall x, x ∈ l1 -> url_of x = url_of y -> (score_of x < score_of y)%Q)
    /\ (forall x, x ∈ l2 -> url_of x = url_of y -> (score_of x <= score_of y)%Q).

(** What [urlMap] holds once the results [l] have been visited. *)
Definition urlMap_of (urlMap : gmap (list N) nat) (l : list nat) : Prop :=
  (forall u, urlMap !! u = None -> forall x, x ∈ l -> url_of x <> u)
  /\ (forall u y, urlMap !! u = Some y -> url_of y = u /\ first_best l y).

End Upstash.






(** A sample store: four results, two of them with the same URL. *)
Definition sample_heap (x : nat) : ScoredResult :=
  match x with
  | 0%nat => {| sr_result := sample_result "A"; sr_score := Some (1 # 2) |}
  | 1%nat => {| sr_result := {| title := Some (lit "B"); description := None;
                                url := Some (lit "https://vercel.com/docs") |};
                sr_score := Some (3 # 4) |}
  | 2%nat => {| sr_result := sample_result "C"; sr_score := Some (9 # 10) |}
  | _ => {| sr_result := {| title := None; description := None; url := None |};
            sr_score := None |}
  end.

(** ** Mixedbread provider: one chunk per file, and the URL of a chunk *)

(** The fields of a scored chunk that the deduplication and the URL read;
    [meta_path] is [generated_metadata?.path]. *)
Record Chunk := {
  file_id : jsstring;
  filename : option jsstring;
  meta_path : option jsstring;
}.

(** [res.data.reduce((acc, item) => ...)]: an item is pushed unless some
    item of [acc] has its [file_id]. *)
Definition push_unless_seen (acc : list Chunk) (item : Chunk) : list Chunk :=
  if existsb (fun existing => bool_decide (file_id existing = file_id item)) acc
  then acc
  else acc ++ [item].

Definition uniqueResults (data : list Chunk) : list Chunk :=
  foldl push_unless_seen [] data.

(** [s.indexOf(needle)]; [None] is -1. *)
Fixpoint indexOf (s needle : jsstring) : option nat :=
  if startsWith s needle then Some 0%nat
  else
    match s with
    | [] => None
    | _ :: s' => S <$> indexOf s' needle
    end.

(** The class [[^/.]]. *)
Definition not_slash_dot (c : char16) : bool := negb ((c =? 47) || (c =? 46))%N.

(** [s.replace(/\.[^/.]+$/, "")]: the first place where a dot is followed,
    up to the end of the string, by one or more characters other than [/]
    and [.], is where the string is cut. *)
Fixpoint strip_extension (s : jsstring) : jsstring :=
  match s with
  | [] => []
  | c :: s' =>
      if (c =? 46)%N && negb (bool_decide (s' = [])) && forallb not_slash_dot s'
      then []
      else c :: strip_extension s'
  end.

(** The URL of a chunk; [anchor] is what [slugify] made of the chunk's
    second-level heading. *)
Definition chunk_url (item : Chunk) (anchor : jsstring) : jsstring :=
  match meta_path item with
  | Some (c :: path) =>
      match anchor with
      | [] => c :: path
      | _ => (c :: path) ++ lit "#" ++ anchor
      end
  | _ =>
      match filename item with
      | Some (c :: name) =>
          match indexOf (c :: name) (lit "/docs/") with
          | Some docsIndex => strip_extension (drop docsIndex (c :: name))
          | None => []
          end
      | _ => []
      end
  end.

(** A file extension as the pattern sees it. *)
Definition is_extension (e : jsstring) : Prop :=
  exists e', e = 46%N :: e' /\ e' <> [] /\ forallb not_slash_dot e' = true.

(** ** Further vocabulary *)

(** The grades at positions [i] and [j] exchanged. *)
Definition swap_grades (scores : list Z) (i j : nat) : list Z :=
  <[i := grade_at scores j]> (<[j := grade_at scores i]> scores).

(** [trim] at the end of the string only. *)
Definition trim_end (s : jsstring) : jsstring := reverse (trim_start (reverse s)).

(** The pieces of a formatted passage: the title and the description as
    they are shown, the text before the description, and the URL part. *)
Definition shown_title (r : SearchResult) : jsstring :=
  truncate (or_else (title r) (lit "Untitled")) MAX_TITLE_CHARS.

Definition shown_description (r : SearchResult) : jsstring :=
  truncate (or_else (description r) []) MAX_PASSAGE_CHARS.

Definition passage_head (r : SearchResult) : jsstring :=
  lit "Title: " ++ shown_title r ++ LF ++ lit " Description: ".

Definition url_part (r : SearchResult) : jsstring :=
  match url r with
  | Some (c :: u) => LF ++ lit "URL: " ++ c :: u
  | _ => []
  end.

(** What one judgement adds to the accumulators of [scoreDataset], and the
    accumulators after a run of judgements that starts at index [i]. *)
Definition record_one (acc : DatasetScore) (i : nat) (one : ScoreOne) : DatasetScore :=
  {| total := total acc + recorded one;
     counts := <[recorded one := default 0 (counts acc !! recorded one) + 1]> (counts acc);
     errors := errors acc + (if has_sentinel one then 1 else 0);
     ds_durationMs := (ds_durationMs acc + durationMs one)%Q;
     perDoc := perDoc acc ++ [{| index := i; pd_score := recorded one |}] |}.

Fixpoint aggregate (i : nat) (acc : DatasetScore) (js : list ScoreOne) : DatasetScore :=
  match js with
  | [] => acc
  | one :: js' => aggregate (S i) (record_one acc i one) js'
  end.

Definition no_scores : DatasetScore :=
  {| total := 0;
     counts := <[0 := 0]> (<[1 := 0]> (<[2 := 0]> (<[3 := 0]> ∅)));
     errors := 0;
     ds_durationMs := 0%Q;
     perDoc := [] |}.

(** Sums and tallies over the entries and the judgements of a run. *)
Definition sum_scores (docs : list PerDoc) : Z :=
  foldr (fun pd acc => pd_score pd + acc) 0 docs.

Fixpoint tally (g : Z) (docs : list PerDoc) : Z :=
  match docs with
  | [] => 0
  | pd :: docs' => (if pd_score pd =? g then 1 else 0) + tally g docs'
  end.

Definition sum_elapsed (js : list ScoreOne) : Q :=
  foldr (fun one acc => (durationMs one + acc)%Q) 0%Q js.

(** [n] of [makeFeedback]: the number of documents it reports as scored. *)
Definition docs_scored (agg : DatasetScore) : Z :=
  foldl Z.add 0 (map snd (map_to_list (counts agg))).

(** A judge whose answer depends on the prompt only. *)
Definition history_free (generateText : list jsstring -> jsstring -> GenOutcome * Q) : Prop :=
  forall log log' prompt, generateText log prompt = generateText log' prompt.

(** Every grade has its counter. *)
Definition all_grades_counted (m : gmap Z Z) : Prop :=
  forall g, is_grade g = true -> is_Some (m !! g).

(** A sample judge that looks at the prompt only: grade 3 when the passage
    is titled [A], grade 1 otherwise. *)
Definition title_judge (log : list jsstring) (prompt : jsstring) : GenOutcome * Q :=
  if bool_decide (prompt = prompt_of (lit "vercel pricing") (sample_result "A"))
  then (Resolved (Some (lit "##final score: 3")), 2%Q)
  else (Resolved (Some (lit "##final score: 1")), 2%Q).

(** A sample judge that answers every call, with a text that is no grade. *)
Definition undecided_judge (log : list jsstring) (prompt : jsstring) : GenOutcome * Q :=
  (Resolved (Some (lit "ERR: I cannot decide on a score.")), 1%Q).

(** A sample judge that is down: every call throws. *)
Definition dead_judge (log : list jsstring) (prompt : jsstring) : GenOutcome * Q :=
  (Rejected (lit "Error: 503"), 1%Q).

(** * Properties *)

(** ** Metrics engine *)

Section MetricsFacts.
Local Open Scope Q_scope.

Lemma gain_0 : gain 0 == 0.
Proof. reflexivity. Qed.

Lemma gain_3 : gain 3 == 7.
Proof. reflexivity. Qed.

Lemma is_grade_cases g :
  is_grade g = true -> g = 0%Z \/ g = 1%Z \/ g = 2%Z \/ g = 3%Z.
Proof. unfold is_grade. lia. Qed.

Lemma gain_grade_bounds g : is_grade g = true -> 0 <= gain g <= 7.
Proof.
  intros Hg. destruct (is_grade_cases g Hg) as [-> | [-> | [-> | ->]]];
    vm_compute; split; discriminate.
Qed.

Lemma gain_grade_mono g g' :
  is_grade g = true -> is_grade g' = true -> (g <= g')%Z -> gain g <= gain g'.
Proof.
  intros Hg Hg' Hle.
  destruct (is_grade_cases g Hg) as [-> | [-> | [-> | ->]]];
    destruct (is_grade_cases g' Hg') as [-> | [-> | [-> | ->]]];
    try lia; vm_compute; discriminate.
Qed.

Lemma gain_grade_zero g : is_grade g = true -> gain g == 0 -> g = 0%Z.
Proof.
  intros Hg. destruct (is_grade_cases g Hg) as [-> | [-> | [-> | ->]]];
    [reflexivity | vm_compute; discriminate ..].
Qed.

Lemma gain_grade_top g : is_grade g = true -> gain g == 7 -> g = 3%Z.
Proof.
  intros Hg. destruct (is_grade_cases g Hg) as [-> | [-> | [-> | ->]]];
    [vm_compute; discriminate .. | reflexivity].
Qed.

Lemma grade_at_is_grade scores i :
  grades scores = true -> is_grade (grade_at scores i) = true.
Proof.
  unfold grades, grade_at. intros H.
  destruct (scores !! i) as [g|] eqn:E; [| reflexivity]. simpl.
  rewrite forallb_forall in H. apply H.
  apply list_elem_of_In. eapply list_elem_of_lookup_2. exact E.
Qed.

Lemma weight_pos alpha i : 0 < alpha -> 0 < weight alpha i.
Proof. intros H. apply Qpower_0_lt. exact H. Qed.

(** Sums over a list of indices. *)

Lemma Qsum_le f g l :
  (forall i, In i l -> f i <= g i) -> Qsum f l <= Qsum g l.
Proof.
  induction l as [| a l IH]; intros H; simpl.
  - apply Qle_refl.
  - apply Qplus_le_compat; [apply H; left; reflexivity |].
    apply IH. intros i Hi. apply H. right. exact Hi.
Qed.

Lemma Qsum_nonneg f l : (forall i, In i l -> 0 <= f i) -> 0 <= Qsum f l.
Proof.
  induction l as [| a l IH]; intros H; simpl.
  - apply Qle_refl.
  - assert (0 <= f a) by (apply H; left; reflexivity).
    assert (0 <= Qsum f l) by (apply IH; intros i Hi; apply H; right; exact Hi).
    lra.
Qed.

Lemma Qsum_pos f a l : (forall i, In i (a :: l) -> 0 < f i) -> 0 < Qsum f (a :: l).
Proof.
  intros H. simpl.
  assert (0 < f a) by (apply H; left; reflexivity).
  assert (0 <= Qsum f l).
  { apply Qsum_nonneg. intros i Hi. apply Qlt_le_weak, H. right. exact Hi. }
  lra.
Qed.

Lemma Qsum_zero_iff f l :
  (forall i, In i l -> 0 <= f i) ->
  Qsum f l == 0 <-> (forall i, In i l -> f i == 0).
Proof.
  induction l as [| a l IH]; intros H; simpl.
  - split; [intros _ i [] | reflexivity].
  - assert (Ha : 0 <= f a) by (apply H; left; reflexivity).
    assert (Hl : forall i, In i l -> 0 <= f i) by (intros i Hi; apply H; right; exact Hi).
    pose proof (Qsum_nonneg f l Hl) as Hs.
    specialize (IH Hl). split.
    + intros E i [<- | Hi]; [lra |]. apply IH; [lra | exact Hi].
    + intros E. assert (f a == 0) by (apply E; left; reflexivity).
      assert (Qsum f l == 0) by (apply IH; intros i Hi; apply E; right; exact Hi).
      lra.
Qed.

Lemma Qsum_scale_sub c f g l :
  c * Qsum f l - Qsum (fun i => f i * g i) l == Qsum (fun i => f i * (c - g i)) l.
Proof.
  induction l as [| a l IH]; simpl; [ring |].
  rewrite <- IH. ring.
Qed.

(** The loop adds the terms of the two sums to its accumulators. *)
Lemma eu_loop_sums scores alpha fuel i num denomP :
  fst (eu_loop scores alpha fuel i num denomP)
    == num + Qsum (fun j => weight alpha j * gain (grade_at scores j)) (seq i fuel)
  /\ snd (eu_loop scores alpha fuel i num denomP)
    == denomP + Qsum (weight alpha) (seq i fuel).
Proof.
  revert i num denomP. induction fuel as [| fuel IH]; intros i num denomP; simpl.
  - split; ring.
  - destruct (IH (S i) (num + alpha ^ Z.of_nat i * gain (default 0%Z (scores !! i)))
                (denomP + alpha ^ Z.of_nat i)) as [E1 E2].
    rewrite E1, E2. unfold weight, grade_at. split; ring.
Qed.

(** With a positive [alpha] the guard [denom > 0] never changes the value. *)
Lemma expectedUtilityOutOf10_sums scores alpha L :
  0 < alpha ->
  expectedUtilityOutOf10 scores alpha L
    == Qsum (gains scores alpha) (seq 0 L) / (Qsum (weight alpha) (seq 0 L) * 7) * 10.
Proof.
  intros Ha. unfold expectedUtilityOutOf10.
  pose proof (eu_loop_sums scores alpha L 0 0 0) as [E1 E2].
  destruct (eu_loop scores alpha L 0 0 0) as [num denomP]. simpl in E1, E2.
  fold (gains scores alpha) in E1.
  assert (En : num == Qsum (gains scores alpha) (seq 0 L)) by (rewrite E1; ring).
  assert (Ed : denomP == Qsum (weight alpha) (seq 0 L)) by (rewrite E2; ring).
  clear E1 E2. change (gain 3) with 7.
  destruct (Qlt_le_dec 0 (denomP * 7)) as [Hpos | Hle].
  - rewrite En, Ed. reflexivity.
  - destruct L as [| L].
    + simpl. unfold Qdiv. rewrite !Qmult_0_l. reflexivity.
    + exfalso.
      assert (0 < Qsum (weight alpha) (seq 0 (S L))).
      { apply Qsum_pos. intros i _. apply weight_pos, Ha. }
      lra.
Qed.

Lemma EU_ALPHA_pos : 0 < EU_ALPHA.
Proof. reflexivity. Qed.

Lemma weights_pos : 0 < Qsum (weight EU_ALPHA) (seq 0 EVAL_DEPTH).
Proof. apply Qsum_pos. intros i _. apply weight_pos, EU_ALPHA_pos. Qed.

Lemma EU_sums scores :
  EU scores
    == Qsum (gains scores EU_ALPHA) (seq 0 EVAL_DEPTH)
       / (Qsum (weight EU_ALPHA) (seq 0 EVAL_DEPTH) * 7) * 10.
Proof. apply expectedUtilityOutOf10_sums, EU_ALPHA_pos. Qed.

Lemma gains_bounds scores i :
  grades scores = true ->
  0 <= gains scores EU_ALPHA i <= weight EU_ALPHA i * 7.
Proof.
  intros Hg. unfold gains.
  pose proof (weight_pos EU_ALPHA i EU_ALPHA_pos) as Hw.
  pose proof (gain_grade_bounds _ (grade_at_is_grade scores i Hg)) as [H0 H7].
  split.
  - apply Qmult_le_0_compat; [apply Qlt_le_weak, Hw | exact H0].
  - apply Qmult_le_l; assumption.
Qed.

(** Numerator against denominator. *)
Lemma gains_sum_bounds scores :
  grades scores = true ->
  0 <= Qsum (gains scores EU_ALPHA) (seq 0 EVAL_DEPTH)
    <= Qsum (weight EU_ALPHA) (seq 0 EVAL_DEPTH) * 7.
Proof.
  intros Hg. split.
  - apply Qsum_nonneg. intros i _. apply gains_bounds, Hg.
  - assert (E : Qsum (weight EU_ALPHA) (seq 0 EVAL_DEPTH) * 7
                == Qsum (fun i => weight EU_ALPHA i * 7) (seq 0 EVAL_DEPTH)).
    { generalize (seq 0 EVAL_DEPTH). intros l.
      induction l as [| a l IH]; simpl; [ring | rewrite <- IH; ring]. }
    rewrite E. apply Qsum_le. intros i _. apply gains_bounds, Hg.
Qed.

Lemma EU_bounds scores : grades scores = true -> 0 <= EU scores <= 10.
Proof.
  intros Hg. rewrite EU_sums.
  pose proof (gains_sum_bounds scores Hg) as [H0 H7].
  pose proof weights_pos as HD.
  set (N := Qsum (gains scores EU_ALPHA) (seq 0 EVAL_DEPTH)) in *.
  set (D := Qsum (weight EU_ALPHA) (seq 0 EVAL_DEPTH)) in *.
  assert (HD7 : 0 < D * 7) by lra.
  split.
  - apply Qmult_le_0_compat; [| discriminate].
    apply Qle_shift_div_l; [exact HD7 | lra].
  - assert (N / (D * 7) <= 1) by (apply Qle_shift_div_r; [exact HD7 | lra]).
    lra.
Qed.

Lemma EU_eq_iff scores c :
  EU scores == c * 10
  <-> Qsum (gains scores EU_ALPHA) (seq 0 EVAL_DEPTH)
      == c * (Qsum (weight EU_ALPHA) (seq 0 EVAL_DEPTH) * 7).
Proof.
  rewrite EU_sums. pose proof weights_pos as HD.
  set (N := Qsum (gains scores EU_ALPHA) (seq 0 EVAL_DEPTH)) in *.
  set (D := Qsum (weight EU_ALPHA) (seq 0 EVAL_DEPTH)) in *.
  assert (HD7 : ~ D * 7 == 0) by lra.
  split; intros E.
  - assert (E' : N / (D * 7) == c) by lra.
    rewrite <- E'. field. lra.
  - rewrite E. field. lra.
Qed.

Lemma computeMetrics_nEU scores pooled : nEU (computeMetrics scores pooled) = EU scores.
Proof. reflexivity. Qed.

Lemma grade_at_insert scores i g j :
  (i < length scores)%nat ->
  grade_at (<[i := g]> scores) j = if decide (i = j) then g else grade_at scores j.
Proof.
  intros Hi. unfold grade_at. destruct (decide (i = j)) as [<- | Hne].
  - rewrite list_lookup_insert_eq; [reflexivity | exact Hi].
  - rewrite list_lookup_insert_ne; [reflexivity | exact Hne].
Qed.

Lemma grades_insert scores i g :
  grades scores = true -> is_grade g = true -> grades (<[i := g]> scores) = true.
Proof.
  unfold grades. revert i. induction scores as [| a l IH]; intros i Hs Hg.
  - reflexivity.
  - simpl in Hs. apply andb_prop in Hs as [Ha Hl].
    destruct i as [| i]; simpl.
    + rewrite Hg. exact Hl.
    + rewrite Ha. apply IH; assumption.
Qed.

Lemma grade_at_zero_cases (scores : list Z) i :
  grade_at scores i = 0%Z <-> scores !! i = Some 0%Z \/ scores !! i = None.
Proof.
  unfold grade_at. destruct (scores !! i) as [g|]; simpl.
  - split; [intros ->; left; reflexivity | intros [[= ->] | [=]]; reflexivity].
  - split; [right; reflexivity | reflexivity].
Qed.

Lemma grade_at_three (scores : list Z) i :
  grade_at scores i = 3%Z <-> scores !! i = Some 3%Z.
Proof.
  unfold grade_at. destruct (scores !! i) as [g|]; simpl.
  - split; [intros ->; reflexivity | intros [= ->]; reflexivity].
  - split; discriminate.
Qed.

Lemma in_seq_depth i : In i (seq 0 EVAL_DEPTH) <-> (i < EVAL_DEPTH)%nat.
Proof. rewrite in_seq. lia. Qed.

(** [EU] vanishes exactly when every counted position has grade 0. *)
Lemma EU_zero_iff scores :
  grades scores = true ->
  EU scores == 0 <-> (forall i, (i < EVAL_DEPTH)%nat -> grade_at scores i = 0%Z).
Proof.
  intros Hg. change 0 with (0 * 10) at 1. rewrite EU_eq_iff.
  rewrite Qmult_0_l, Qsum_zero_iff
    by (intros i _; apply gains_bounds, Hg).
  split; intros H i Hi.
  - apply in_seq_depth, H in Hi. unfold gains in Hi.
    pose proof (weight_pos EU_ALPHA i EU_ALPHA_pos) as Hw.
    apply gain_grade_zero; [apply grade_at_is_grade, Hg |].
    apply Qmult_integral in Hi as [Hi | Hi]; [lra | exact Hi].
  - unfold gains. rewrite H by (apply in_seq_depth, Hi).
    change (gain 0) with 0. ring.
Qed.

(** [EU] is 10 exactly when every counted position has grade 3. *)
Lemma EU_ten_iff scores :
  grades scores = true ->
  EU scores == 10 <-> (forall i, (i < EVAL_DEPTH)%nat -> grade_at scores i = 3%Z).
Proof.
  intros Hg. change 10 with (1 * 10) at 1. rewrite EU_eq_iff.
  set (l := seq 0 EVAL_DEPTH).
  assert (E : Qsum (gains scores EU_ALPHA) l == 1 * (Qsum (weight EU_ALPHA) l * 7)
              <-> Qsum (fun i => weight EU_ALPHA i * (7 - gain (grade_at scores i))) l == 0).
  { rewrite <- Qsum_scale_sub. fold (gains scores EU_ALPHA). split; intros E; lra. }
  rewrite E. clear E.
  assert (Hpos : forall i, 0 <= weight EU_ALPHA i * (7 - gain (grade_at scores i))).
  { intros i. pose proof (weight_pos EU_ALPHA i EU_ALPHA_pos) as Hw.
    pose proof (gain_grade_bounds _ (grade_at_is_grade scores i Hg)) as [_ H7].
    apply Qmult_le_0_compat; lra. }
  rewrite Qsum_zero_iff by (intros i _; apply Hpos).
  split; intros H i Hi.
  - apply in_seq_depth, H in Hi.
    pose proof (weight_pos EU_ALPHA i EU_ALPHA_pos) as Hw.
    apply gain_grade_top; [apply grade_at_is_grade, Hg |].
    apply Qmult_integral in Hi as [Hi | Hi]; lra.
  - rewrite H by (apply in_seq_depth, Hi). change (gain 3) with 7. ring.
Qed.

Lemma EU_le scores scores' :
  (forall i, gains scores EU_ALPHA i <= gains scores' EU_ALPHA i) ->
  EU scores <= EU scores'.
Proof.
  intros H. rewrite !EU_sums. pose proof weights_pos as HD.
  apply Qmult_le_compat_r; [| discriminate].
  apply Qmult_le_compat_r.
  - apply Qsum_le. intros i _. apply H.
  - apply Qlt_le_weak, Qinv_lt_0_compat. lra.
Qed.

(** C1.  The Expected Utility the service computes is the formula of the
    specification with alpha = 0.9 and L = 10:
    [ Σ_{i<10} α^i · gain(scores[i] or 0) ] / [ (Σ_{i<10} α^i) · gain(3) ] × 10,
    where [gain rel = 2^rel - 1] and a position past the end of the
    sequence counts as grade 0.  It holds for every sequence of integers,
    so for every grade sequence. *)
Theorem EU_is_formula (scores pooled : list Z) :
  (forall rel, gain rel = 2 ^ rel - 1)
  /\ (forall i, (length scores <= i)%nat -> grade_at scores i = 0%Z)
  /\ expectedUtilityOutOf10 scores EU_ALPHA EVAL_DEPTH
     == EU_formula scores (9 # 10) 10
  /\ nEU (computeMetrics scores pooled) == EU_formula scores (9 # 10) 10.
Proof.
  assert (E : EU scores == EU_formula scores (9 # 10) 10).
  { rewrite EU_sums. unfold EU_formula. change (gain 3) with 7. reflexivity. }
  split; [reflexivity |]. split; [| split; exact E].
  intros i Hi. unfold grade_at. rewrite lookup_ge_None_2; [reflexivity | exact Hi].
Qed.

(** C2 fails as stated: the sequence [3] has length 1 <= 10 and all its
    elements are 3, yet its Expected Utility is not 10. *)
Lemma EU_short_all_three_not_ten :
  (length [3%Z] <= 10)%nat /\ all_three [3%Z] = true /\ ~ EU [3%Z] == 10.
Proof. split; [simpl; lia |]. split; [reflexivity |]. vm_compute. discriminate. Qed.

(** C2, amended.  For a grade sequence, the Expected Utility is 10 if and
    only if each of the positions 0..9 holds an explicit grade 3; so an
    all-3 sequence has Expected Utility 10 when its length is 10, and less
    than 10 when it is shorter. *)
Theorem EU_ten_iff_all_positions_three (scores : list Z) :
  grades scores = true ->
  (EU scores == 10
   <-> forall i, (i < EVAL_DEPTH)%nat -> scores !! i = Some 3%Z)
  /\ (all_three scores = true -> length scores = EVAL_DEPTH -> EU scores == 10)
  /\ ((length scores < EVAL_DEPTH)%nat -> EU scores < 10).
Proof.
  intros Hg.
  assert (Hiff : EU scores == 10
      <-> forall i, (i < EVAL_DEPTH)%nat -> scores !! i = Some 3%Z).
  { rewrite EU_ten_iff by exact Hg.
    split; intros H i Hi; apply grade_at_three, H, Hi. }
  split; [exact Hiff |]. split.
  - intros H3 Hlen. apply Hiff. intros i Hi.
    destruct (lookup_lt_is_Some_2 scores i) as [g Eg]; [lia |].
    rewrite Eg. f_equal. unfold all_three in H3. rewrite forallb_forall in H3.
    symmetry. apply Z.eqb_eq, H3, list_elem_of_In.
    eapply list_elem_of_lookup_2. exact Eg.
  - intros Hlen. pose proof (EU_bounds scores Hg) as [_ Hle].
    destruct (Qlt_le_dec (EU scores) 10) as [Hlt | Hge]; [exact Hlt | exfalso].
    assert (E : EU scores == 10) by lra.
    apply Hiff with (i := length scores) in E; [| exact Hlen].
    rewrite lookup_ge_None_2 in E by lia. discriminate.
Qed.

Lemma EU_ten_iff_all_positions_three_witness :
  grades (replicate 10 3%Z) = true /\ EU (replicate 10 3%Z) == 10.
Proof.
  split; [reflexivity |].
  apply (EU_ten_iff_all_positions_three (replicate 10 3%Z)); reflexivity.
Defined.

(** C3.  For a grade sequence the Expected Utility lies in [0,10]; it is 0
    if and only if every position 0..9 holds grade 0 or is absent; the
    empty sequence has Expected Utility 0. *)
Theorem EU_in_range_zero_iff (scores : list Z) :
  grades scores = true ->
  (0 <= EU scores <= 10)
  /\ (EU scores == 0
      <-> forall i, (i < EVAL_DEPTH)%nat ->
            scores !! i = Some 0%Z \/ scores !! i = None)
  /\ EU [] == 0.
Proof.
  intros Hg. split; [apply EU_bounds, Hg |]. split.
  - rewrite EU_zero_iff by exact Hg.
    split; intros H i Hi; apply grade_at_zero_cases, H, Hi.
  - reflexivity.
Qed.

Lemma EU_in_range_zero_iff_witness :
  grades [3; 2; 0]%Z = true /\ 0 <= EU [3; 2; 0]%Z <= 10.
Proof.
  split; [reflexivity |].
  apply (EU_in_range_zero_iff [3; 2; 0]%Z). reflexivity.
Defined.

(** C4.  Raising one grade of a grade sequence to a larger grade, the other
    positions unchanged, does not lower the Expected Utility. *)
Theorem EU_monotone_in_each_grade (scores : list Z) (i : nat) (g' : Z) :
  grades scores = true ->
  is_grade g' = true ->
  (i < length scores)%nat ->
  (grade_at scores i < g')%Z ->
  EU scores <= EU (<[i := g']> scores).
Proof.
  intros Hg Hg' Hi Hlt. apply EU_le. intros j. unfold gains.
  apply Qmult_le_l; [apply weight_pos, EU_ALPHA_pos |].
  apply gain_grade_mono.
  - apply grade_at_is_grade, Hg.
  - apply grade_at_is_grade, grades_insert; assumption.
  - rewrite grade_at_insert by exact Hi.
    destruct (decide (i = j)) as [<- | _]; lia.
Qed.

Lemma EU_monotone_in_each_grade_witness :
  EU [3; 0; 1]%Z <= EU [3; 2; 1]%Z.
Proof.
  apply (EU_monotone_in_each_grade [3; 0; 1]%Z 1 2%Z);
    [reflexivity | reflexivity | simpl; lia | reflexivity].
Defined.

End MetricsFacts.

(** ** Score extractor *)

Section MatcherFacts.
Local Open Scope N_scope.

Lemma prev_after_cons prev x t : prev_after prev (x :: t) = prev_after (Some x) t.
Proof.
  unfold prev_after. destruct t as [| y t]; [reflexivity |].
  change (last (x :: y :: t)) with (last (y :: t)).
  destruct (last (y :: t)) eqn:E; [reflexivity |].
  apply last_None in E. discriminate.
Qed.

(** A run of pattern characters reads as many code units, equal to them
    after canonicalisation. *)
Lemma match_lits l pat prev t s cap :
  map canonicalize t = map canonicalize l ->
  match_nodes (map Lit l ++ pat) prev (t ++ s) cap
  = match_nodes pat (prev_after prev t) s cap.
Proof.
  revert prev t. induction l as [| c l IH]; intros prev t E.
  - destruct t; [reflexivity | discriminate].
  - destruct t as [| x t]; [discriminate |]. injection E as Ex Et.
    simpl. rewrite Ex, N.eqb_refl. rewrite prev_after_cons.
    apply IH, Et.
Qed.

Lemma match_lits_inv l pat prev s cap r :
  match_nodes (map Lit l ++ pat) prev s cap = Some r ->
  exists t s', s = t ++ s' /\ map canonicalize t = map canonicalize l
    /\ match_nodes pat (prev_after prev t) s' cap = Some r.
Proof.
  revert prev s. induction l as [| c l IH]; intros prev s H.
  - exists [], s. auto.
  - simpl in H. destruct s as [| x s]; [discriminate |].
    destruct (canonicalize x =? canonicalize c) eqn:E; [| discriminate].
    apply N.eqb_eq in E.
    destruct (IH _ _ H) as (t & s' & -> & Et & Hm).
    exists (x :: t), s'. rewrite prev_after_cons. simpl. rewrite E, Et. auto.
Qed.

Lemma match_star_nil pat prev cap :
  match_nodes (SpaceStar :: pat) prev [] cap = match_nodes pat prev [] cap.
Proof. reflexivity. Qed.

Lemma match_star_cons pat prev x s cap :
  match_nodes (SpaceStar :: pat) prev (x :: s) cap
  = if is_space x
    then match match_nodes (SpaceStar :: pat) (Some x) s cap with
         | Some r => Some r
         | None => match_nodes pat prev (x :: s) cap
         end
    else match_nodes pat prev (x :: s) cap.
Proof. reflexivity. Qed.

(** [\s*] reads a run of white space, whatever follows. *)
Lemma match_star_inv pat prev s cap r :
  match_nodes (SpaceStar :: pat) prev s cap = Some r ->
  exists w s', s = w ++ s' /\ spaces w = true
    /\ match_nodes pat (prev_after prev w) s' cap = Some r.
Proof.
  revert prev. induction s as [| x s IH]; intros prev H.
  - exists [], []. auto.
  - rewrite match_star_cons in H. destruct (is_space x) eqn:Ex.
    + destruct (match_nodes (SpaceStar :: pat) (Some x) s cap) as [r' |] eqn:E.
      * injection H as ->. destruct (IH _ E) as (w & s' & -> & Hw & Hm).
        exists (x :: w), s'. rewrite prev_after_cons. simpl. rewrite Ex. auto.
      * exists [], (x :: s). auto.
    + exists [], (x :: s). auto.
Qed.

(** Before such a pattern, [\s*] reads the whole run of white space. *)
Lemma match_star_greedy pat prev w s cap :
  rejects_space pat -> spaces w = true -> is_space (default 0 (head s)) = false ->
  match_nodes (SpaceStar :: pat) prev (w ++ s) cap
  = match_nodes pat (prev_after prev w) s cap.
Proof.
  intros Hrej Hw Hs. revert prev. induction w as [| x w IH]; intros prev.
  - destruct s as [| y s]; [reflexivity |].
    change ([] ++ y :: s) with (y :: s). rewrite match_star_cons.
    simpl in Hs. rewrite Hs. reflexivity.
  - simpl in Hw. apply andb_prop in Hw as [Hx Hw].
    rewrite prev_after_cons, <- (IH Hw (Some x)).
    change ((x :: w) ++ s) with (x :: w ++ s).
    rewrite match_star_cons, Hx.
    destruct (match_nodes (SpaceStar :: pat) (Some x) (w ++ s) cap);
      [reflexivity | apply Hrej, Hx].
Qed.

(** Tests on code units, as propositions. *)
Ltac N_tests :=
  repeat (progress
    rewrite ?andb_true_iff, ?orb_true_iff, ?andb_false_iff, ?orb_false_iff,
      ?N.leb_le, ?N.eqb_eq, ?N.leb_gt, ?N.eqb_neq in * ).

(** Only an ASCII letter changes under canonicalisation. *)
Lemma canonicalize_inv x c :
  canonicalize x = c -> x = c \/ (x = c + 32 /\ 97 <= x <= 122).
Proof.
  unfold canonicalize.
  destruct ((97 <=? x) && (x <=? 122)) eqn:E; intros H; N_tests; lia.
Qed.

Lemma canonicalize_eq_ascii x c :
  canonicalize x = canonicalize c -> c < 128 -> x < 128.
Proof.
  intros E Hc. apply canonicalize_inv in E. unfold canonicalize in E.
  destruct ((97 <=? c) && (c <=? 122)) eqn:Ec; N_tests; lia.
Qed.

Lemma ascii_space_cases x :
  x < 128 -> is_space x = true ->
  x = 9 \/ x = 10 \/ x = 11 \/ x = 12 \/ x = 13 \/ x = 32.
Proof.
  unfold is_space, is_white_space, is_line_terminator. intros Hx H. N_tests. lia.
Qed.

(** A code unit that canonicalises like a pattern letter is no white space. *)
Lemma same_letter_not_space x c :
  canonicalize x = canonicalize c -> 32 < c < 128 -> is_space x = false.
Proof.
  intros E Hc. destruct (is_space x) eqn:Ex; [exfalso | reflexivity].
  pose proof (canonicalize_eq_ascii x c E ltac:(lia)) as Hx.
  apply ascii_space_cases in Ex; [| exact Hx].
  assert (Ex' : canonicalize x = x) by (unfold canonicalize; destruct Ex as [-> | [-> | [-> | [-> | [-> | ->]]]]]; reflexivity).
  rewrite Ex' in E. symmetry in E. apply canonicalize_inv in E. lia.
Qed.

Lemma rejects_space_lit c l pat :
  32 < c < 128 -> rejects_space (map Lit (c :: l) ++ pat).
Proof.
  intros Hc prev x s cap Hx. simpl.
  destruct (canonicalize x =? canonicalize c) eqn:E; [| reflexivity].
  apply N.eqb_eq in E. rewrite (same_letter_not_space x c E Hc) in Hx. discriminate.
Qed.

Lemma rejects_space_final pat : rejects_space (map Lit (lit "final") ++ pat).
Proof. apply (rejects_space_lit 102 (lit "inal")). split; reflexivity. Qed.

Lemma rejects_space_score pat : rejects_space (map Lit (lit "score") ++ pat).
Proof. apply (rejects_space_lit 115 (lit "core")). split; reflexivity. Qed.

Lemma rejects_space_colon pat : rejects_space (map Lit (lit ":") ++ pat).
Proof. apply (rejects_space_lit 58 []). split; reflexivity. Qed.

Lemma rejects_space_group pat : rejects_space (Group03 :: pat).
Proof.
  intros prev x s cap Hx. simpl.
  destruct ((48 <=? x) && (x <=? 51)) eqn:E; [exfalso | reflexivity].
  N_tests. apply ascii_space_cases in Hx; lia.
Qed.

Lemma same_ci_spec a b :
  same_ci a b = true <-> map canonicalize a = map canonicalize b.
Proof. unfold same_ci. apply bool_decide_eq_true. Qed.

Lemma same_ci_head t c l s :
  map canonicalize t = map canonicalize (c :: l) -> 32 < c < 128 ->
  is_space (default 0 (head (t ++ s))) = false.
Proof.
  intros E Hc. destruct t as [| x t]; [discriminate |]. injection E as Ex _.
  simpl. eapply same_letter_not_space; eassumption.
Qed.

Lemma same_ci_exact t c :
  map canonicalize t = map canonicalize [c] -> c < 65 -> t = [c].
Proof.
  intros E Hc. destruct t as [| x [| y t]]; try discriminate.
  injection E as Ex. apply canonicalize_inv in Ex.
  unfold canonicalize in Ex.
  destruct ((97 <=? c) && (c <=? 122)) eqn:Ec; N_tests; [lia |]. f_equal. lia.
Qed.

Lemma score_pattern_nodes :
  score_pattern
  = map Lit (lit "##") ++ SpaceStar :: map Lit (lit "final") ++ SpaceStar
    :: map Lit (lit "score") ++ SpaceStar :: map Lit (lit ":") ++ SpaceStar
    :: [Group03; WordBoundary].
Proof. reflexivity. Qed.

Lemma is_grade_digit g :
  is_grade g = true -> 48 <= digit g <= 51 /\ is_word_char (digit g) = true.
Proof.
  intros Hg. destruct (is_grade_cases g Hg) as [-> | [-> | [-> | ->]]];
    vm_compute; repeat split; discriminate.
Qed.

Lemma match_group prev x suf cap :
  match_nodes [Group03; WordBoundary] prev (x :: suf) cap
  = if (48 <=? x) && (x <=? 51)
    then if xorb (is_word_char x) (is_word (head suf)) then Some [x] else None
    else None.
Proof. reflexivity. Qed.

Lemma marker_pieces_spec w1 fin w2 sco w3 w4 :
  marker_pieces w1 fin w2 sco w3 w4 = true
  <-> spaces w1 = true /\ map canonicalize fin = map canonicalize (lit "final")
      /\ spaces w2 = true /\ map canonicalize sco = map canonicalize (lit "score")
      /\ spaces w3 = true /\ spaces w4 = true.
Proof.
  unfold marker_pieces. rewrite !andb_true_iff, !same_ci_spec. tauto.
Qed.

(** The pattern matches a marker that is followed by a boundary, and
    captures its digit. *)
Lemma match_marker prev w1 fin w2 sco w3 w4 g suf cap :
  marker_pieces w1 fin w2 sco w3 w4 = true ->
  is_grade g = true -> boundary suf = true ->
  match_nodes score_pattern prev (marker_text w1 fin w2 sco w3 w4 g ++ suf) cap
  = Some [digit g].
Proof.
  intros Hp Hg Hb. apply marker_pieces_spec in Hp as (H1 & Hf & H2 & Hs & H3 & H4).
  destruct (is_grade_digit g Hg) as [[Hlo Hhi] Hword].
  rewrite score_pattern_nodes. unfold marker_text. rewrite <- !app_assoc.
  rewrite match_lits by reflexivity.
  rewrite match_star_greedy;
    [| apply rejects_space_final | exact H1
     | eapply same_ci_head; [exact Hf | split; reflexivity]].
  rewrite match_lits by exact Hf.
  rewrite match_star_greedy;
    [| apply rejects_space_score | exact H2
     | eapply same_ci_head; [exact Hs | split; reflexivity]].
  rewrite match_lits by exact Hs.
  rewrite match_star_greedy; [| apply rejects_space_colon | exact H3 | reflexivity].
  rewrite match_lits by reflexivity.
  rewrite match_star_greedy; [| apply rejects_space_group | exact H4 |].
  - change ([digit g] ++ suf) with (digit g :: suf). rewrite match_group.
    apply N.leb_le in Hlo, Hhi. rewrite Hlo, Hhi, Hword. simpl.
    unfold boundary in Hb. apply negb_true_iff in Hb. rewrite Hb. reflexivity.
  - simpl. destruct (is_space (digit g)) eqn:E; [exfalso | reflexivity].
    apply ascii_space_cases in E; lia.
Qed.

Lemma match_group_inv prev s cap r :
  match_nodes [Group03; WordBoundary] prev s cap = Some r ->
  exists x suf, s = x :: suf /\ 48 <= x <= 51 /\ boundary suf = true /\ r = [x].
Proof.
  destruct s as [| x suf]; [discriminate |]. rewrite match_group.
  destruct ((48 <=? x) && (x <=? 51)) eqn:E; [| discriminate].
  assert (Hw : is_word_char x = true).
  { unfold is_word_char. N_tests. lia. }
  rewrite Hw. simpl. destruct (is_word (head suf)) eqn:Eb; [discriminate |].
  intros [= <-]. exists x, suf. unfold boundary. rewrite Eb. N_tests. auto.
Qed.

(** Conversely, what the pattern matches is a marker followed by a
    boundary, and the capture is its digit. *)
Lemma match_marker_inv prev s cap r :
  match_nodes score_pattern prev s cap = Some r ->
  exists w1 fin w2 sco w3 w4 g suf,
    s = marker_text w1 fin w2 sco w3 w4 g ++ suf
    /\ marker_pieces w1 fin w2 sco w3 w4 = true
    /\ is_grade g = true /\ boundary suf = true /\ r = [digit g].
Proof.
  rewrite score_pattern_nodes. intros H.
  apply match_lits_inv in H as (t1 & s1 & -> & E1 & H).
  apply match_star_inv in H as (w1 & s2 & -> & H1 & H).
  apply match_lits_inv in H as (fin & s3 & -> & Ef & H).
  apply match_star_inv in H as (w2 & s4 & -> & H2 & H).
  apply match_lits_inv in H as (sco & s5 & -> & Es & H).
  apply match_star_inv in H as (w3 & s6 & -> & H3 & H).
  apply match_lits_inv in H as (t2 & s7 & -> & E2 & H).
  apply match_star_inv in H as (w4 & s8 & -> & H4 & H).
  apply match_group_inv in H as (x & suf & -> & Hx & Hb & ->).
  assert (t2 = lit ":") as -> by (apply same_ci_exact; [exact E2 | reflexivity]).
  assert (t1 = lit "##") as ->.
  { destruct t1 as [| a [| b [| c t1]]]; try discriminate.
    injection E1 as Ea Eb.
    assert ([a] = [35]) as [= ->] by (apply same_ci_exact; [simpl; f_equal; exact Ea | reflexivity]).
    assert ([b] = [35]) as [= ->] by (apply same_ci_exact; [simpl; f_equal; exact Eb | reflexivity]).
    reflexivity. }
  exists w1, fin, w2, sco, w3, w4, (Z.of_N x - 48)%Z, suf.
  assert (Ed : digit (Z.of_N x - 48) = x) by (unfold digit; lia).
  unfold marker_text. rewrite Ed, <- !app_assoc.
  split; [reflexivity |].
  split; [apply marker_pieces_spec; repeat split; assumption |].
  split; [unfold is_grade; lia | auto].
Qed.

(** The pattern starts with a character, so a match does not depend on
    what precedes it, and starts on a [#]. *)
Lemma match_score_pattern_prev prev prev' s cap :
  match_nodes score_pattern prev s cap = match_nodes score_pattern prev' s cap.
Proof. reflexivity. Qed.

Lemma match_score_pattern_hash prev x s cap :
  (x =? 35) = false -> match_nodes score_pattern prev (x :: s) cap = None.
Proof.
  intros Hx.
  destruct (match_nodes score_pattern prev (x :: s) cap) as [r |] eqn:E;
    [exfalso | reflexivity].
  rewrite score_pattern_nodes in E.
  apply match_lits_inv in E as (t & s' & Hs & Et & _).
  destruct t as [| a t]; [discriminate |].
  injection Hs as <- _. injection Et as Ea _.
  change (canonicalize x = 35) in Ea. apply canonicalize_inv in Ea.
  N_tests. lia.
Qed.

Lemma exec_from_here pat prev s cap :
  match_nodes pat prev s [] = Some cap -> exec_from pat prev s = Some cap.
Proof. intros H. destruct s; simpl; rewrite H; reflexivity. Qed.

Lemma exec_from_cons pat prev x s :
  match_nodes pat prev (x :: s) [] = None ->
  exec_from pat prev (x :: s) = exec_from pat (Some x) s.
Proof. intros H. simpl. rewrite H. reflexivity. Qed.

Lemma exec_from_nil pat prev : exec_from pat prev [] = match_nodes pat prev [] [].
Proof. simpl. destruct (match_nodes pat prev [] []); reflexivity. Qed.

Lemma exec_from_hashless prev pre s :
  hashless pre = true ->
  exec_from score_pattern prev (pre ++ s)
  = exec_from score_pattern (prev_after prev pre) s.
Proof.
  revert prev. induction pre as [| x pre IH]; intros prev H; [reflexivity |].
  simpl in H. apply andb_prop in H as [Hx Hpre]. apply negb_true_iff in Hx.
  rewrite prev_after_cons, <- (IH (Some x) Hpre).
  apply exec_from_cons, match_score_pattern_hash, Hx.
Qed.

Lemma exec_from_some_inv pat prev s cap :
  exec_from pat prev s = Some cap ->
  exists pre s', s = pre ++ s' /\ match_nodes pat (prev_after prev pre) s' [] = Some cap.
Proof.
  revert prev. induction s as [| x s IH]; intros prev H.
  - rewrite exec_from_nil in H. exists [], []. auto.
  - simpl in H. destruct (match_nodes pat prev (x :: s) []) as [r |] eqn:E.
    + injection H as ->. exists [], (x :: s). auto.
    + destruct (IH _ H) as (pre & s' & -> & Hm).
      exists (x :: pre), s'. rewrite prev_after_cons. auto.
Qed.

Lemma exec_from_none_inv pat prev pre s :
  exec_from pat prev (pre ++ s) = None ->
  match_nodes pat (prev_after prev pre) s [] = None.
Proof.
  revert prev. induction pre as [| x pre IH]; intros prev H.
  - change (prev_after prev []) with prev.
    destruct (match_nodes pat prev s []) as [r |] eqn:E; [| reflexivity].
    apply exec_from_here in E. simpl in H. congruence.
  - rewrite prev_after_cons. apply IH.
    change ((x :: pre) ++ s) with (x :: pre ++ s) in H. simpl in H.
    destruct (match_nodes pat prev (x :: pre ++ s) []); [discriminate | exact H].
Qed.

Lemma parseInt10_digit g : is_grade g = true -> parseInt10 [digit g] = Some g.
Proof.
  intros Hg. destruct (is_grade_cases g Hg) as [-> | [-> | [-> | ->]]]; reflexivity.
Qed.

Lemma extractScore_of_exec s g :
  exec score_pattern s = Some [digit g] -> is_grade g = true -> extractScore s = g.
Proof.
  intros E Hg. unfold extractScore. rewrite E, parseInt10_digit by exact Hg.
  destruct (is_grade_cases g Hg) as [-> | [-> | [-> | ->]]]; reflexivity.
Qed.

Lemma extractScore_range s :
  extractScore s = PARSE_FAILURE \/ is_grade (extractScore s) = true.
Proof.
  unfold extractScore, PARSE_FAILURE, is_grade.
  destruct (exec score_pattern s) as [m1 |]; [| left; reflexivity].
  destruct (parseInt10 m1) as [n |]; [| left; reflexivity].
  destruct ((n <? 0)%Z || (n >? 3)%Z) eqn:E; [left; reflexivity | right; lia].
Qed.

Lemma extractScore_at_marker pre w1 fin w2 sco w3 w4 g suf :
  is_grade g = true ->
  marker_pieces w1 fin w2 sco w3 w4 = true ->
  hashless pre = true -> boundary suf = true ->
  extractScore (pre ++ marker_text w1 fin w2 sco w3 w4 g ++ suf) = g.
Proof.
  intros Hg Hp Hpre Hb. apply extractScore_of_exec; [| exact Hg].
  unfold exec. rewrite exec_from_hashless by exact Hpre.
  apply exec_from_here, match_marker; assumption.
Qed.

Lemma extractScore_failure_iff s :
  extractScore s = PARSE_FAILURE <-> ~ has_marker s.
Proof.
  split.
  - intros Hfail (pre & w1 & fin & w2 & sco & w3 & w4 & g & suf & -> & Hp & Hg & Hb).
    destruct (exec score_pattern (pre ++ marker_text w1 fin w2 sco w3 w4 g ++ suf))
      as [cap |] eqn:E.
    + pose proof E as E0. apply exec_from_some_inv in E0 as (pre' & s' & _ & Hm).
      apply match_marker_inv in Hm
        as (? & ? & ? & ? & ? & ? & g' & ? & _ & _ & Hg' & _ & ->).
      rewrite (extractScore_of_exec _ g' E Hg') in Hfail.
      unfold PARSE_FAILURE in Hfail. subst g'. discriminate.
    + apply exec_from_none_inv in E.
      rewrite (match_score_pattern_prev _ None) in E.
      rewrite match_marker in E by assumption. discriminate.
  - intros Hno. destruct (extractScore_range s) as [E | Hg]; [exact E | exfalso].
    apply Hno. unfold extractScore in Hg.
    destruct (exec score_pattern s) as [cap |] eqn:E; [| discriminate].
    apply exec_from_some_inv in E as (pre & s' & -> & Hm).
    apply match_marker_inv in Hm as (w1 & fin & w2 & sco & w3 & w4 & g & suf & -> & Hp & Hg' & Hb & _).
    exists pre, w1, fin, w2, sco, w3, w4, g, suf. auto.
Qed.

(** C5 fails as stated: the text [##final score: 2x] contains the marker of
    grade 2, followed by the letter [x], and is rejected. *)
Lemma extractScore_marker_then_letter :
  lit "##final score: 2x"
  = [] ++ marker_text [] (lit "final") (lit " ") (lit "score") [] (lit " ") 2 ++ lit "x"
  /\ marker_pieces [] (lit "final") (lit " ") (lit "score") [] (lit " ") = true
  /\ extractScore (lit "##final score: 2x") = PARSE_FAILURE.
Proof. repeat split; reflexivity. Qed.

Lemma no_match_starts_in_spec pre rest :
  no_match_starts_in pre rest = true
  <-> forall k, (k < length pre)%nat ->
        match_nodes score_pattern None (drop k (pre ++ rest)) [] = None.
Proof.
  unfold no_match_starts_in. rewrite forallb_forall. split.
  - intros H k Hk. specialize (H k). rewrite in_seq in H.
    specialize (H ltac:(lia)).
    destruct (match_nodes score_pattern None (drop k (pre ++ rest)) []);
      [discriminate | reflexivity].
  - intros H k Hk. apply in_seq in Hk. rewrite (H k) by lia. reflexivity.
Qed.

(** The pattern matches at a position exactly when a marker with a grade
    digit and a boundary starts there. *)
Lemma match_iff_marker_at s k :
  (k <= length s)%nat ->
  match_nodes score_pattern None (drop k s) [] = None <-> ~ marker_at s k.
Proof.
  intros Hk. split.
  - intros Hnone (w1 & fin & w2 & sco & w3 & w4 & g & suf & _ & E & Hp & Hg & Hb).
    rewrite E, match_marker in Hnone by assumption. discriminate.
  - intros Hno.
    destruct (match_nodes score_pattern None (drop k s) []) as [cap |] eqn:E;
      [exfalso | reflexivity].
    apply match_marker_inv in E
      as (w1 & fin & w2 & sco & w3 & w4 & g & suf & E & Hp & Hg & Hb & _).
    apply Hno. exists w1, fin, w2, sco, w3, w4, g, suf. auto.
Qed.

Lemma no_match_starts_in_marker_at pre rest :
  no_match_starts_in pre rest = true
  <-> forall k, (k < length pre)%nat -> ~ marker_at (pre ++ rest) k.
Proof.
  rewrite no_match_starts_in_spec.
  split; intros H k Hk; apply match_iff_marker_at; try apply H; try exact Hk;
    rewrite length_app; lia.
Qed.

(** [exec] passes over a prefix in which no match starts. *)
Lemma exec_from_skip_prefix prev pre rest :
  (forall k, (k < length pre)%nat ->
     match_nodes score_pattern None (drop k (pre ++ rest)) [] = None) ->
  exec_from score_pattern prev (pre ++ rest)
  = exec_from score_pattern (prev_after prev pre) rest.
Proof.
  revert prev. induction pre as [| x pre IH]; intros prev H; [reflexivity |].
  rewrite prev_after_cons, <- (IH (Some x)).
  - apply exec_from_cons. rewrite (match_score_pattern_prev _ None).
    apply (H 0%nat). simpl. lia.
  - intros k Hk. apply (H (S k)). simpl. lia.
Qed.

Lemma hashless_no_match_starts_in pre rest :
  hashless pre = true -> no_match_starts_in pre rest = true.
Proof.
  intros Hpre. apply no_match_starts_in_spec. intros k Hk.
  assert (Hx : exists x tl, drop k (pre ++ rest) = x :: tl /\ (x =? 35) = false).
  { destruct (lookup_lt_is_Some_2 pre k Hk) as [x Hx].
    exists x, (drop (S k) (pre ++ rest)). split.
    - apply drop_S. rewrite lookup_app_l by exact Hk. exact Hx.
    - unfold hashless in Hpre. rewrite forallb_forall in Hpre.
      apply negb_true_iff, Hpre, list_elem_of_In.
      eapply list_elem_of_lookup_2. exact Hx. }
  destruct Hx as (x & tl & -> & Hx). apply match_score_pattern_hash, Hx.
Qed.

Lemma extractScore_at_leftmost_marker pre w1 fin w2 sco w3 w4 g suf :
  is_grade g = true ->
  marker_pieces w1 fin w2 sco w3 w4 = true ->
  boundary suf = true ->
  no_match_starts_in pre (marker_text w1 fin w2 sco w3 w4 g ++ suf) = true ->
  extractScore (pre ++ marker_text w1 fin w2 sco w3 w4 g ++ suf) = g.
Proof.
  intros Hg Hp Hb Hpre. apply extractScore_of_exec; [| exact Hg].
  unfold exec. rewrite exec_from_skip_prefix
    by (apply no_match_starts_in_spec, Hpre).
  apply exec_from_here, match_marker; assumption.
Qed.

(** C5, amended.  For every grade g in {0,1,2,3}: a text made of a prefix,
    the marker [##final score: g] in any casing and with any white space
    between its pieces, and a rest that is empty or starts with a non-word
    character, yields g, provided no match of the pattern starts inside the
    prefix, that is, no marker with a digit 0-3 and a boundary after it
    starts at an earlier position; a prefix without [#] is such a prefix.
    A text yields PARSE_FAILURE if and only if it holds no such marker at
    any place.  No other value is returned. *)
Theorem extractScore_round_trip :
  (forall g pre w1 fin w2 sco w3 w4 suf,
     is_grade g = true ->
     marker_pieces w1 fin w2 sco w3 w4 = true ->
     boundary suf = true ->
     no_match_starts_in pre (marker_text w1 fin w2 sco w3 w4 g ++ suf) = true ->
     extractScore (pre ++ marker_text w1 fin w2 sco w3 w4 g ++ suf) = g)
  /\ (forall pre rest,
        no_match_starts_in pre rest = true
        <-> forall k, (k < length pre)%nat -> ~ marker_at (pre ++ rest) k)
  /\ (forall pre rest, hashless pre = true -> no_match_starts_in pre rest = true)
  /\ (forall s, extractScore s = PARSE_FAILURE <-> ~ has_marker s)
  /\ (forall s, extractScore s = PARSE_FAILURE \/ is_grade (extractScore s) = true).
Proof.
  split; [| split; [| split; [| split]]].
  - intros g pre w1 fin w2 sco w3 w4 suf. apply extractScore_at_leftmost_marker.
  - apply no_match_starts_in_marker_at.
  - apply hashless_no_match_starts_in.
  - apply extractScore_failure_iff.
  - apply extractScore_range.
Qed.

Lemma extractScore_round_trip_witness :
  extractScore ((lit "# Verdict" ++ LF) ++
                marker_text [] (lit "final") (lit " ") (lit "score") []
                  (lit " ") 3 ++ []) = 3%Z.
Proof. apply (proj1 extractScore_round_trip); reflexivity. Defined.

End MatcherFacts.

(** ** Dataset scorer *)

Section ScorerFacts.

Variable generateText : list jsstring -> jsstring -> GenOutcome * Q.

Local Abbreviation gen := generateText.

(** Every call of [scoreOne] sends one prompt. *)
Lemma scoreOne_log query passage log :
  snd (scoreOne gen query passage log) = log ++ [umbrelaPrompt query passage].
Proof.
  unfold scoreOne, callJudge, mbind, Judged_bind, mret, Judged_ret.
  destruct (generateText log (umbrelaPrompt query passage)) as [[text | err] dt];
    reflexivity.
Qed.

Lemma scoreOne_rejected query passage log err dt :
  generateText log (umbrelaPrompt query passage) = (Rejected err, dt) ->
  fst (scoreOne gen query passage log)
  = {| score := 0; raw := lit "ERR:" ++ err; durationMs := dt |}.
Proof.
  intros E.
  unfold scoreOne, callJudge, mbind, Judged_bind, mret, Judged_ret.
  rewrite E. reflexivity.
Qed.

Lemma scoreOne_resolved query passage log text dt :
  generateText log (umbrelaPrompt query passage) = (Resolved text, dt) ->
  fst (scoreOne gen query passage log)
  = {| score := if extractScore (or_else text []) =? -1 then 0
                else extractScore (or_else text []);
       raw := or_else text [];
       durationMs := dt |}.
Proof.
  intros E.
  unfold scoreOne, callJudge, mbind, Judged_bind, mret, Judged_ret.
  rewrite E. reflexivity.
Qed.

(** The score of a judgement is a grade. *)
Lemma scoreOne_grade query passage log :
  is_grade (score (fst (scoreOne gen query passage log))) = true.
Proof.
  destruct (generateText log (umbrelaPrompt query passage)) as [[text | err] dt] eqn:E.
  - rewrite (scoreOne_resolved _ _ _ _ _ E). simpl.
    destruct (extractScore_range (or_else text [])) as [-> | Hg]; [reflexivity |].
    destruct (extractScore (or_else text []) =? -1); [reflexivity | exact Hg].
  - rewrite (scoreOne_rejected _ _ _ _ _ E). reflexivity.
Qed.

Lemma recorded_grade one : is_grade (recorded one) = true.
Proof. unfold recorded, is_grade. destruct ((score one <? 0) || (score one >? 3)) eqn:E; lia. Qed.

Lemma recorded_score one : is_grade (score one) = true -> recorded one = score one.
Proof. unfold recorded, is_grade. destruct ((score one <? 0) || (score one >? 3)) eqn:E; lia. Qed.

(** One iteration of the loop, field by field. *)
Lemma scoreDataset_step_eq query i r acc log :
  scoreDataset_step gen query i r acc log
  = let one := fst (scoreOne gen query (passage_of r) log) in
    ({| total := total acc + recorded one;
        counts := <[recorded one := default 0 (counts acc !! recorded one) + 1]> (counts acc);
        errors := errors acc + (if has_sentinel one then 1 else 0);
        ds_durationMs := (ds_durationMs acc + durationMs one)%Q;
        perDoc := perDoc acc ++ [{| index := i; pd_score := recorded one |}] |},
     log ++ [prompt_of query r]).
Proof.
  unfold scoreDataset_step, mbind, Judged_bind, mret, Judged_ret.
  fold (passage_of r).
  pose proof (scoreOne_log query (passage_of r) log) as Hlog.
  destruct (scoreOne gen query (passage_of r) log) as [one log']. simpl in Hlog. subst log'.
  cbv zeta. simpl fst. unfold has_sentinel, recorded, prompt_of.
  destruct (startsWith (raw one) (lit "ERR:")) eqn:Es.
  - simpl orb. cbv iota. reflexivity.
  - rewrite orb_false_l.
    destruct (negb (test_line_hashes true (raw one))); rewrite Z.add_0_r; reflexivity.
Qed.

Lemma judgements_cons query r todo log :
  judgements gen query (r :: todo) log
  = fst (scoreOne gen query (passage_of r) log)
    :: judgements gen query todo (log ++ [prompt_of query r]).
Proof.
  simpl. pose proof (scoreOne_log query (passage_of r) log) as Hlog.
  destruct (scoreOne gen query (passage_of r) log) as [one log']. simpl in Hlog.
  subst log'. reflexivity.
Qed.

Lemma judgements_length query todo log :
  length (judgements gen query todo log) = length todo.
Proof.
  revert log. induction todo as [| r todo IH]; intros log; [reflexivity |].
  rewrite judgements_cons. simpl. rewrite IH. reflexivity.
Qed.


Lemma entries_cons i one js :
  entries i (one :: js) = {| index := i; pd_score := recorded one |} :: entries (S i) js.
Proof.
  unfold entries. rewrite imap_cons, Nat.add_0_r. f_equal.
  apply imap_ext. intros k x _. simpl. f_equal. lia.
Qed.

Lemma entries_lookup i js k pd :
  entries i js !! k = Some pd ->
  exists one, js !! k = Some one /\ pd = {| index := i + k; pd_score := recorded one |}.
Proof.
  unfold entries. rewrite list_lookup_imap.
  destruct (js !! k) as [one |]; simpl; [| discriminate].
  intros [= <-]. exists one. auto.
Qed.


(** What the loop adds to its accumulators and to the log. *)
Lemma scoreDataset_loop_spec query todo i acc log :
  let js := judgements gen query todo log in
  let run := scoreDataset_loop gen query i todo acc log in
  snd run = log ++ map (prompt_of query) todo
  /\ perDoc (fst run) = perDoc acc ++ entries i js
  /\ errors (fst run) = errors acc + count_sentinels js.
Proof.
  revert i acc log. induction todo as [| r todo IH]; intros i acc log.
  - simpl. rewrite !app_nil_r, Z.add_0_r. auto.
  - cbv zeta. rewrite judgements_cons, entries_cons.
    change (scoreDataset_loop gen query i (r :: todo) acc log)
      with (let '(acc', log') := scoreDataset_step gen query i r acc log in
            scoreDataset_loop gen query (S i) todo acc' log').
    rewrite scoreDataset_step_eq. cbv zeta.
    destruct (IH (S i)
      {| total := total acc + recorded (fst (scoreOne gen query (passage_of r) log));
         counts := <[recorded (fst (scoreOne gen query (passage_of r) log))
                     := default 0 (counts acc !! recorded (fst (scoreOne gen query (passage_of r) log))) + 1]>
                   (counts acc);
         errors := errors acc + (if has_sentinel (fst (scoreOne gen query (passage_of r) log)) then 1 else 0);
         ds_durationMs := (ds_durationMs acc + durationMs (fst (scoreOne gen query (passage_of r) log)))%Q;
         perDoc := perDoc acc ++ [{| index := i; pd_score := recorded (fst (scoreOne gen query (passage_of r) log)) |}] |}
      (log ++ [prompt_of query r])) as (Hlog & Hdoc & Herr).
    rewrite Hlog, Hdoc, Herr. simpl.
    rewrite <- !app_assoc. simpl. split; [reflexivity |]. split; [reflexivity | lia].
Qed.

Lemma scoreDataset_spec query results log :
  let capped := take EVAL_DEPTH results in
  let js := judgements gen query capped log in
  let run := scoreDataset gen query results log in
  snd run = log ++ map (prompt_of query) capped
  /\ perDoc (fst run) = entries 0 js
  /\ errors (fst run) = count_sentinels js.
Proof.
  cbv zeta. unfold scoreDataset.
  destruct (scoreDataset_loop_spec query (take EVAL_DEPTH results) 0
    {| total := 0;
       counts := <[0 := 0]> (<[1 := 0]> (<[2 := 0]> (<[3 := 0]> ∅)));
       errors := 0; ds_durationMs := 0%Q; perDoc := [] |} log) as (Hlog & Hdoc & Herr).
  rewrite Hlog, Hdoc, Herr. simpl. auto.
Qed.

(** C6.  [scoreDataset] sends to the judge the first EVAL_DEPTH (= 10)
    items of its input, in order, and nothing else, so at most 10 calls;
    [perDoc] has min(len(results), EVAL_DEPTH) entries, and entry k carries
    index k. *)
Theorem scoreDataset_capped (query : jsstring) (results : list SearchResult)
    (log : list jsstring) :
  let run := scoreDataset gen query results log in
  snd run = log ++ map (prompt_of query) (take EVAL_DEPTH results)
  /\ (length (snd run) - length log <= EVAL_DEPTH)%nat
  /\ length (perDoc (fst run)) = Nat.min (length results) EVAL_DEPTH
  /\ (forall k pd, perDoc (fst run) !! k = Some pd -> index pd = k).
Proof.
  cbv zeta. destruct (scoreDataset_spec query results log) as (Hlog & Hdoc & _).
  rewrite Hlog, Hdoc. split; [reflexivity |]. split; [| split].
  - rewrite length_app, length_map, length_take. lia.
  - unfold entries. rewrite length_imap, judgements_length, length_take. lia.
  - intros k pd H. apply entries_lookup in H as (one & _ & ->). reflexivity.
Qed.



Lemma take_take_depth (results : list SearchResult) k :
  (k <= EVAL_DEPTH)%nat -> take EVAL_DEPTH (take k results) = take k results.
Proof. intros Hk. rewrite take_take. f_equal. lia. Qed.


(** *** The orchestrator *)

Lemma evaluate_without_key this query A B log :
  hasApiKey this = false ->
  evaluateSearchResults gen this query A B log = (fallback, log).
Proof. intros H. unfold evaluateSearchResults. rewrite H. reflexivity. Qed.

Lemma evaluate_with_key this query A B log :
  hasApiKey this = true ->
  evaluateSearchResults gen this query A B log
  = let r1 := scoreDataset gen query (take EVAL_DEPTH A) log in
    let r2 := scoreDataset gen query (take EVAL_DEPTH B) (snd r1) in
    let s1 := labels (fst r1) in
    let s2 := labels (fst r2) in
    ({| db1 := {| er_score := EU s1;
                  feedback := makeFeedback (fst r1) 1 (Some (computeMetrics s1 (s1 ++ s2))) |};
        db2 := {| er_score := EU s2;
                  feedback := makeFeedback (fst r2) 2 (Some (computeMetrics s2 (s1 ++ s2))) |};
        llmDuration := (ds_durationMs (fst r1) + ds_durationMs (fst r2))%Q |},
     snd r2).
Proof.
  intros H. unfold evaluateSearchResults. rewrite H.
  change (negb true) with false. cbv beta iota.
  unfold mbind, Judged_bind, mret, Judged_ret. cbv zeta.
  destruct (scoreDataset gen query (take EVAL_DEPTH A) log) as [d1 log1]. simpl.
  destruct (scoreDataset gen query (take EVAL_DEPTH B) log1) as [d2 log2]. reflexivity.
Qed.

Lemma grades_Forall scores :
  grades scores = true <-> Forall (fun g => is_grade g = true) scores.
Proof. unfold grades. rewrite forallb_forall, List.Forall_forall. reflexivity. Qed.

Lemma insert_sorted_Forall {A} (P : A -> Prop) cmp x l :
  P x -> Forall P l -> Forall P (insert_sorted cmp x l).
Proof.
  intros Hx. induction 1 as [| y l Hy Hl IH]; simpl.
  - constructor; [exact Hx | constructor].
  - destruct (cmp x y <=? 0); repeat constructor; assumption.
Qed.

Lemma sort_Forall {A} (P : A -> Prop) cmp l : Forall P l -> Forall P (sort cmp l).
Proof.
  induction 1 as [| x l Hx Hl IH]; simpl; [constructor |].
  apply insert_sorted_Forall; assumption.
Qed.

(** [perDoc] is built in index order, so sorting it by index changes
    nothing: the labels are the recorded grades in rank order. *)
Lemma insert_sorted_first {A} (cmp : A -> A -> Z) x y l :
  cmp x y <= 0 -> insert_sorted cmp x (y :: l) = x :: y :: l.
Proof. intros H. simpl. apply Z.leb_le in H. rewrite H. reflexivity. Qed.

Lemma sort_entries i js :
  sort (fun a b => Z.of_nat (index a) - Z.of_nat (index b)) (entries i js)
  = entries i js.
Proof.
  revert i. induction js as [| one js IH]; intros i; [reflexivity |].
  rewrite entries_cons.
  change (sort ?cmp (?x :: ?l)) with (insert_sorted cmp x (sort cmp l)).
  rewrite IH. destruct js as [| one' js]; [reflexivity |].
  rewrite entries_cons. apply insert_sorted_first. cbn [index]. lia.
Qed.

Lemma labels_in_rank_order query results log :
  labels (fst (scoreDataset gen query results log))
  = map recorded (judgements gen query (take EVAL_DEPTH results) log).
Proof.
  destruct (scoreDataset_spec query results log) as (_ & Hdoc & _).
  unfold labels. rewrite Hdoc, sort_entries. unfold entries.
  rewrite take_ge.
  - apply list_eq. intros k. rewrite !list_lookup_fmap, list_lookup_imap.
    destruct (judgements gen query (take EVAL_DEPTH results) log !! k); reflexivity.
  - rewrite length_map, length_imap, judgements_length, length_take. lia.
Qed.

(** The labels handed to the metrics engine are grades. *)
Lemma labels_grades query results log :
  grades (labels (fst (scoreDataset gen query results log))) = true.
Proof.
  destruct (scoreDataset_spec query results log) as (_ & Hdoc & _).
  apply grades_Forall. unfold labels. rewrite Hdoc.
  apply Forall_take, Forall_map, sort_Forall, Forall_forall.
  intros pd Hin. apply list_elem_of_lookup in Hin as [k Hk].
  apply entries_lookup in Hk as (one & _ & ->). apply recorded_grade.
Qed.

Lemma evaluate_scores_in_range this query A B log :
  hasApiKey this = true ->
  let e := fst (evaluateSearchResults gen this query A B log) in
  (0 <= er_score (db1 e) <= 10 /\ 0 <= er_score (db2 e) <= 10)%Q.
Proof.
  intros H. rewrite (evaluate_with_key _ _ _ _ _ H). cbv zeta. simpl.
  split; apply EU_bounds, labels_grades.
Qed.

Lemma evaluate_calls this query A B log :
  hasApiKey this = true ->
  snd (evaluateSearchResults gen this query A B log)
  = log ++ map (prompt_of query) (take EVAL_DEPTH A)
        ++ map (prompt_of query) (take EVAL_DEPTH B).
Proof.
  intros H. rewrite (evaluate_with_key _ _ _ _ _ H). cbv zeta. simpl.
  destruct (scoreDataset_spec query (take EVAL_DEPTH A) log) as (Hlog1 & _).
  destruct (scoreDataset_spec query (take EVAL_DEPTH B)
              (snd (scoreDataset gen query (take EVAL_DEPTH A) log))) as (Hlog2 & _).
  rewrite Hlog2, Hlog1, !take_take_depth by reflexivity.
  rewrite <- app_assoc. reflexivity.
Qed.

(** C7.  Without a judge credential, [evaluateSearchResults] returns the
    fallback report: both scores are exactly -1, both feedback strings are
    empty, the duration is 0, and no call is made to the judge.  With a
    credential both scores lie in [0,10], so neither is -1. *)
Theorem evaluate_fallback_or_scored (this : LLMService) (query : jsstring)
    (A B : list SearchResult) (log : list jsstring) :
  let run := evaluateSearchResults gen this query A B log in
  let e := fst run in
  (forall key, hasApiKey (new_LLMService key) = false <-> key = None \/ key = Some [])
  /\ if hasApiKey this
     then (0 <= er_score (db1 e) <= 10 /\ 0 <= er_score (db2 e) <= 10
           /\ ~ er_score (db1 e) == -1 /\ ~ er_score (db2 e) == -1)%Q
     else e = fallback /\ snd run = log
          /\ er_score (db1 e) = (-1)%Q /\ er_score (db2 e) = (-1)%Q
          /\ feedback (db1 e) = [] /\ feedback (db2 e) = []
          /\ llmDuration e = 0%Q.
Proof.
  cbv zeta. split.
  - intros [[| c key] |]; simpl; split; intros H;
      try discriminate; auto; destruct H as [H | H]; discriminate.
  - destruct (hasApiKey this) eqn:H.
    + destruct (evaluate_scores_in_range this query A B log H) as [[H1 H1'] [H2 H2']].
      repeat split; try assumption; intros E; lra.
    + rewrite (evaluate_without_key _ _ _ _ _ H). repeat split.
Qed.


(** C9, amended.  The error counter grows by one for a judged item exactly
    when the raw output of the item starts with the failure sentinel [ERR:].
    A call that throws always produces it and is scored 0.  A text the
    judge returns is counted exactly when it starts with [ERR:] itself,
    whether it parses or not; a returned text that does not start with it
    and does not parse to a grade is scored 0 and leaves the counter
    unchanged.  So the tally of a dataset is the number of judgements whose
    raw output starts with [ERR:]. *)
Theorem errors_count_sentinel_only (query : jsstring) :
  (forall i r acc log,
     errors (fst (scoreDataset_step gen query i r acc log))
     = errors acc
       + (if has_sentinel (fst (scoreOne gen query (passage_of r) log)) then 1 else 0))
  /\ (forall passage log err dt,
        gen log (umbrelaPrompt query passage) = (Rejected err, dt) ->
        has_sentinel (fst (scoreOne gen query passage log)) = true
        /\ score (fst (scoreOne gen query passage log)) = 0)
  /\ (forall passage log text dt,
        gen log (umbrelaPrompt query passage) = (Resolved text, dt) ->
        has_sentinel (fst (scoreOne gen query passage log))
        = startsWith (or_else text []) (lit "ERR:")
        /\ (extractScore (or_else text []) = PARSE_FAILURE ->
            score (fst (scoreOne gen query passage log)) = 0))
  /\ (forall passage log text dt,
        gen log (umbrelaPrompt query passage) = (Resolved text, dt) ->
        startsWith (or_else text []) (lit "ERR:") = false ->
        extractScore (or_else text []) = PARSE_FAILURE ->
        has_sentinel (fst (scoreOne gen query passage log)) = false
        /\ score (fst (scoreOne gen query passage log)) = 0)
  /\ (forall results log,
        errors (fst (scoreDataset gen query results log))
        = count_sentinels (judgements gen query (take EVAL_DEPTH results) log)).
Proof.
  split; [| split; [| split; [| split]]].
  - intros i r acc log. rewrite scoreDataset_step_eq. reflexivity.
  - intros passage log err dt E. rewrite (scoreOne_rejected _ _ _ _ _ E). auto.
  - intros passage log text dt E. rewrite (scoreOne_resolved _ _ _ _ _ E).
    unfold has_sentinel. cbn [raw score]. split; [reflexivity |].
    intros ->. reflexivity.
  - intros passage log text dt E Hs Hp. rewrite (scoreOne_resolved _ _ _ _ _ E).
    unfold has_sentinel. cbn [raw score]. rewrite Hs, Hp. auto.
  - intros results log. apply scoreDataset_spec.
Qed.

(** [truncate] keeps the first [max] code units. *)
Lemma truncate_take s max : truncate s max = take max s.
Proof.
  unfold truncate. destruct s as [| c s]; [destruct max; reflexivity |].
  destruct (length (c :: s) <=? max)%nat eqn:E; [| reflexivity].
  apply Nat.leb_le in E. symmetry. apply take_ge. exact E.
Qed.

(** C10.  The passage sent to the judge for an item is the first
    MAX_PASSAGE_CHARS (4000) code units of the formatted passage (title,
    description and URL together), so it never exceeds 4000; when the
    formatted passage is longer, the URL and even the end of the
    description are cut off, as for a result whose description has 4000
    characters. *)
Theorem passage_within_limit (query : jsstring) (r : SearchResult) :
  (length (passage_of r) <= MAX_PASSAGE_CHARS)%nat
  /\ passage_of r = take MAX_PASSAGE_CHARS (formatPassage r)
  /\ (forall i acc log,
        snd (scoreDataset_step gen query i r acc log)
        = log ++ [umbrelaPrompt query (passage_of r)])
  /\ (length (or_else (description long_result) []) = 4000%nat
      /\ formatPassage long_result
         = lit "Title: T" ++ LF ++ lit " Description: " ++ replicate 4000 120%N
           ++ LF ++ lit " URL: " ++ LF ++ lit "URL: https://vercel.com/pricing"
      /\ passage_of long_result
         = lit "Title: T" ++ LF ++ lit " Description: " ++ replicate 3977 120%N).
Proof.
  assert (E : passage_of r = take MAX_PASSAGE_CHARS (formatPassage r))
    by apply truncate_take.
  split; [rewrite E, length_take; lia |]. split; [exact E |]. split.
  - intros i acc log. rewrite scoreDataset_step_eq. reflexivity.
  - split; [vm_compute; reflexivity |]. split; vm_compute; reflexivity.
Qed.

End ScorerFacts.


(** C9 fails as stated: a judge that answers both calls, with a text that
    does not parse to a grade, has both items scored 0 and both counted as
    errors, though no call failed. *)
Lemma returned_error_text_is_counted :
  let text := lit "ERR: I cannot decide on a score." in
  let d := fst (scoreDataset undecided_judge (lit "vercel pricing")
                  [sample_result "A"; sample_result "B"] []) in
  (forall log prompt, undecided_judge log prompt = (Resolved (Some text), 1%Q))
  /\ extractScore text = PARSE_FAILURE
  /\ map pd_score (perDoc d) = [0; 0]
  /\ errors d = 2.
Proof.
  cbv zeta. split; [intros log prompt; reflexivity |].
  vm_compute. repeat split; reflexivity.
Qed.

(** A text the judge returns normally also counts as an error when it
    starts with [ERR:], whatever grade it parses to. *)
Example returned_sentinel_text_counts :
  let judge := fun (_ : list jsstring) (_ : jsstring) =>
                 (Resolved (Some (lit "ERR:##final score: 2")), 1%Q) in
  let d := fst (scoreDataset judge (lit "q") [sample_result "A"] []) in
  errors d = 1 /\ perDoc d = [{| index := 0; pd_score := 2 |}].
Proof. vm_compute. split; reflexivity. Qed.

(** * Further properties *)

(** ** Metrics engine: depth and position *)

Section MetricsMore.
Local Open Scope Q_scope.

Lemma Qsum_ext f g l :
  (forall i, In i l -> f i == g i) -> Qsum f l == Qsum g l.
Proof.
  intros H. apply Qle_antisym; apply Qsum_le; intros i Hi;
    rewrite (H i Hi); apply Qle_refl.
Qed.

(** Two families that differ at one index only. *)
Lemma Qsum_point f g (l : list nat) i :
  NoDup l -> (forall k, k <> i -> g k == f k) ->
  Qsum g l == Qsum f l + (if decide (i ∈ l) then g i - f i else 0).
Proof.
  intros Hnd Hfg. induction Hnd as [| a l Ha Hnd IH]; simpl.
  - destruct (decide (i ∈ [])) as [Hin | _]; [inversion Hin | ring].
  - rewrite IH. destruct (decide (a = i)) as [-> | Hai].
    + destruct (decide (i ∈ l)) as [Hin | _]; [contradiction |].
      destruct (decide (i ∈ i :: l)) as [_ | Hn]; [ring |].
      exfalso. apply Hn. left.
    + rewrite (Hfg a Hai).
      destruct (decide (i ∈ l)) as [Hin | Hin];
        destruct (decide (i ∈ a :: l)) as [Hin' | Hin']; try ring.
      * exfalso. apply Hin'. right. exact Hin.
      * exfalso. apply elem_of_cons in Hin' as [-> | Hin']; contradiction.
Qed.

Lemma EU_le_within scores scores' :
  (forall i, (i < EVAL_DEPTH)%nat -> gains scores EU_ALPHA i <= gains scores' EU_ALPHA i) ->
  EU scores <= EU scores'.
Proof.
  intros H. rewrite !EU_sums. pose proof weights_pos as HD.
  apply Qmult_le_compat_r; [| discriminate].
  apply Qmult_le_compat_r.
  - apply Qsum_le. intros i Hi. apply H, in_seq_depth, Hi.
  - apply Qlt_le_weak, Qinv_lt_0_compat. lra.
Qed.

Lemma EU_ext_within scores scores' :
  (forall i, (i < EVAL_DEPTH)%nat -> grade_at scores i = grade_at scores' i) ->
  EU scores == EU scores'.
Proof.
  intros H. apply Qle_antisym; apply EU_le_within; intros i Hi;
    unfold gains; rewrite (H i Hi); apply Qle_refl.
Qed.

(** X1.  Only the first EVAL_DEPTH grades count, and a grade 0 written out
    counts like a missing one: cutting the sequence at depth 10, or
    appending zeros to it, leaves the Expected Utility unchanged. *)
Theorem EU_depth_and_padding (scores : list Z) (n : nat) :
  EU (take EVAL_DEPTH scores) == EU scores
  /\ EU (scores ++ replicate n 0%Z) == EU scores.
Proof.
  split; apply EU_ext_within; intros i Hi; unfold grade_at.
  - rewrite lookup_take_lt by exact Hi. reflexivity.
  - destruct (decide (i < length scores)%nat) as [Hlt | Hge].
    + rewrite lookup_app_l by exact Hlt. reflexivity.
    + rewrite lookup_app_r, (lookup_ge_None_2 scores) by lia.
      destruct (replicate n 0%Z !! (i - length scores)%nat) as [z |] eqn:E;
        [| reflexivity].
      apply lookup_replicate in E as [-> _]. reflexivity.
Qed.

Lemma gain_grade_strict g g' :
  is_grade g = true -> is_grade g' = true -> (g < g')%Z -> gain g < gain g'.
Proof.
  intros Hg Hg' Hlt.
  destruct (is_grade_cases g Hg) as [-> | [-> | [-> | ->]]];
    destruct (is_grade_cases g' Hg') as [-> | [-> | [-> | ->]]];
    try lia; reflexivity.
Qed.

Lemma scale_nonneg d :
  0 <= d -> 0 <= d / (Qsum (weight EU_ALPHA) (seq 0 EVAL_DEPTH) * 7) * 10.
Proof.
  intros Hd. pose proof weights_pos as HD.
  apply Qmult_le_0_compat; [| discriminate].
  apply Qle_shift_div_l; lra.
Qed.

Lemma scale_pos d :
  0 < d -> 0 < d / (Qsum (weight EU_ALPHA) (seq 0 EVAL_DEPTH) * 7) * 10.
Proof.
  intros Hd. pose proof weights_pos as HD.
  apply Qmult_lt_0_compat; [| reflexivity].
  apply Qlt_shift_div_l; lra.
Qed.

(** What writing grade [g] at position [i] does to the score. *)
Lemma EU_insert scores i g :
  (i < length scores)%nat ->
  EU (<[i := g]> scores)
  == EU scores
     + (if decide (i < EVAL_DEPTH)%nat
        then weight EU_ALPHA i * (gain g - gain (grade_at scores i)) else 0)
       / (Qsum (weight EU_ALPHA) (seq 0 EVAL_DEPTH) * 7) * 10.
Proof.
  intros Hi. rewrite !EU_sums. pose proof weights_pos as HD.
  rewrite (Qsum_point (gains scores EU_ALPHA) (gains (<[i := g]> scores) EU_ALPHA)
             (seq 0 EVAL_DEPTH) i).
  - assert (Hin : gains (<[i := g]> scores) EU_ALPHA i - gains scores EU_ALPHA i
                  == weight EU_ALPHA i * (gain g - gain (grade_at scores i))).
    { unfold gains. rewrite grade_at_insert by exact Hi.
      destruct (decide (i = i)) as [_ | Hne]; [ring | contradiction]. }
    destruct (decide (i ∈ seq 0 EVAL_DEPTH)) as [Hd | Hd];
      destruct (decide (i < EVAL_DEPTH)%nat) as [Hd' | Hd'].
    + rewrite Hin. field. lra.
    + exfalso. apply Hd'. apply in_seq_depth, list_elem_of_In, Hd.
    + exfalso. apply Hd. apply list_elem_of_In, in_seq_depth, Hd'.
    + field. lra.
  - apply NoDup_ListNoDup, seq_NoDup.
  - intros k Hk. unfold gains. rewrite grade_at_insert by exact Hi.
    destruct (decide (i = k)) as [-> | _]; [contradiction | reflexivity].
Qed.

(** X2.  Within the evaluation depth the score is strictly increasing in
    each grade; past the depth a grade has no effect at all. *)
Theorem EU_strict_within_depth (scores : list Z) (i : nat) (g' : Z) :
  grades scores = true -> is_grade g' = true ->
  (i < length scores)%nat -> (grade_at scores i < g')%Z ->
  ((i < EVAL_DEPTH)%nat -> EU scores < EU (<[i := g']> scores))
  /\ ((EVAL_DEPTH <= i)%nat -> EU (<[i := g']> scores) == EU scores).
Proof.
  intros Hg Hg' Hi Hlt. rewrite (EU_insert scores i g' Hi).
  destruct (decide (i < EVAL_DEPTH)%nat) as [Hd | Hd]; split; intros Hd'; try lia.
  - pose proof (gain_grade_strict _ _ (grade_at_is_grade scores i Hg) Hg' Hlt) as Hgain.
    pose proof (weight_pos EU_ALPHA i EU_ALPHA_pos) as Hw.
    assert (Hpos : 0 < weight EU_ALPHA i * (gain g' - gain (grade_at scores i)))
      by (apply Qmult_lt_0_compat; lra).
    apply scale_pos in Hpos. lra.
  - unfold Qdiv. rewrite !Qmult_0_l. ring.
Qed.

Lemma EU_strict_within_depth_witness : EU [3; 0; 1]%Z < EU [3; 2; 1]%Z.
Proof.
  apply (EU_strict_within_depth [3; 0; 1]%Z 1 2%Z);
    [reflexivity | reflexivity | simpl; lia | reflexivity | unfold EVAL_DEPTH; lia].
Defined.

Lemma weight_succ i : weight EU_ALPHA (S i) == weight EU_ALPHA i * EU_ALPHA.
Proof.
  unfold weight. rewrite Nat2Z.inj_succ, <- Z.add_1_r.
  rewrite Qpower_plus by discriminate. reflexivity.
Qed.

(** The weights decrease with the position. *)
Lemma weight_decreasing i j :
  (i <= j)%nat -> weight EU_ALPHA j <= weight EU_ALPHA i.
Proof.
  induction 1 as [| j Hle IH]; [apply Qle_refl |].
  rewrite weight_succ. pose proof (weight_pos EU_ALPHA j EU_ALPHA_pos) as Hw.
  assert (weight EU_ALPHA j * EU_ALPHA <= weight EU_ALPHA j * 1).
  { apply Qmult_le_l; [exact Hw | discriminate]. }
  lra.
Qed.

(** X3.  Position matters: exchanging two grades so that the larger one
    comes first does not lower the score. *)
Theorem EU_prefers_higher_grade_earlier (scores : list Z) (i j : nat) :
  grades scores = true ->
  (i < j)%nat -> (j < length scores)%nat ->
  (grade_at scores i <= grade_at scores j)%Z ->
  EU scores <= EU (swap_grades scores i j).
Proof.
  intros Hg Hij Hj Hle. unfold swap_grades.
  rewrite EU_insert by (rewrite length_insert; lia).
  rewrite (EU_insert scores j) by exact Hj.
  rewrite (grade_at_insert scores j _ i Hj).
  destruct (decide (j = i)) as [-> | _]; [lia |].
  pose proof (gain_grade_mono _ _ (grade_at_is_grade scores i Hg)
                (grade_at_is_grade scores j Hg) Hle) as Hgain.
  pose proof (weight_pos EU_ALPHA i EU_ALPHA_pos) as Hwi.
  pose proof (weight_pos EU_ALPHA j EU_ALPHA_pos) as Hwj.
  pose proof (weight_decreasing i j ltac:(lia)) as Hdec.
  set (Gi := gain (grade_at scores i)) in *.
  set (Gj := gain (grade_at scores j)) in *.
  set (wi := weight EU_ALPHA i) in *. set (wj := weight EU_ALPHA j) in *.
  set (D := Qsum (weight EU_ALPHA) (seq 0 EVAL_DEPTH) * 7).
  assert (Hsum : forall a b, a / D * 10 + b / D * 10 == (a + b) / D * 10).
  { intros a b. pose proof weights_pos. field. unfold D. lra. }
  rewrite <- Qplus_assoc, Hsum.
  assert (Hd : 0 <= (if decide (j < EVAL_DEPTH)%nat then wj * (Gi - Gj) else 0)
                    + (if decide (i < EVAL_DEPTH)%nat then wi * (Gj - Gi) else 0)).
  { destruct (decide (j < EVAL_DEPTH)%nat) as [Hjd | Hjd];
      destruct (decide (i < EVAL_DEPTH)%nat) as [Hid | Hid]; try lia.
    - assert (0 <= (wi - wj) * (Gj - Gi)) by (apply Qmult_le_0_compat; lra).
      lra.
    - assert (0 <= wi * (Gj - Gi)) by (apply Qmult_le_0_compat; lra). lra.
    - lra. }
  apply scale_nonneg in Hd. fold D in Hd. lra.
Qed.

Lemma EU_prefers_higher_grade_earlier_witness :
  EU [1; 0; 3]%Z <= EU (swap_grades [1; 0; 3]%Z 0 2).
Proof.
  apply (EU_prefers_higher_grade_earlier [1; 0; 3]%Z 0 2);
    [reflexivity | lia | simpl; lia | discriminate].
Defined.

End MetricsMore.

(** ** Score extractor: the guards behind the pattern *)

Section ExtractorMore.

(** X5.  Whenever the pattern matches, its capture is one digit 0-3 and
    [parseInt] reads it as that grade: the [NaN] check and the range check
    of [extractScore] never fire, and the result is the captured grade. *)
Theorem extractScore_guards_never_fire (rawText : jsstring) :
  match exec score_pattern rawText with
  | Some m1 =>
      exists g, is_grade g = true /\ m1 = [digit g]
                /\ parseInt10 m1 = Some g /\ extractScore rawText = g
  | None => extractScore rawText = PARSE_FAILURE
  end.
Proof.
  destruct (exec score_pattern rawText) as [m1 |] eqn:E.
  - pose proof E as E0. apply exec_from_some_inv in E0 as (pre & s' & _ & Hm).
    apply match_marker_inv in Hm
      as (? & ? & ? & ? & ? & ? & g & ? & _ & _ & Hg & _ & ->).
    exists g. split; [exact Hg |]. split; [reflexivity |].
    split; [apply parseInt10_digit, Hg | apply extractScore_of_exec; assumption].
  - unfold extractScore. rewrite E. reflexivity.
Qed.

End ExtractorMore.

(** ** Passages: what reaches the judge *)

Section PassageMore.

Lemma trim_end_snoc_space s c : is_space c = true -> trim_end (s ++ [c]) = trim_end s.
Proof.
  intros Hc. unfold trim_end. rewrite reverse_snoc. simpl. rewrite Hc. reflexivity.
Qed.

Lemma trim_end_snoc_char s c : is_space c = false -> trim_end (s ++ [c]) = s ++ [c].
Proof.
  intros Hc. unfold trim_end. rewrite reverse_snoc. simpl. rewrite Hc.
  rewrite reverse_cons, reverse_involutive. reflexivity.
Qed.

(** Trimming the end stops at the last character that is no white space. *)
Lemma trim_end_after_char a c b :
  is_space c = false -> trim_end (a ++ c :: b) = a ++ c :: trim_end b.
Proof.
  intros Hc. induction b as [| d b IH] using rev_ind.
  - change (a ++ [c]) with (a ++ [c]). rewrite trim_end_snoc_char by exact Hc.
    reflexivity.
  - replace (a ++ c :: b ++ [d]) with ((a ++ c :: b) ++ [d])
      by (rewrite <- app_assoc; reflexivity).
    destruct (is_space d) eqn:Hd.
    + rewrite !trim_end_snoc_space by exact Hd. exact IH.
    + rewrite !trim_end_snoc_char by exact Hd. rewrite <- app_assoc. reflexivity.
Qed.

Lemma truncate_length s max : (length (truncate s max) <= max)%nat.
Proof. rewrite truncate_take, length_take. lia. Qed.

(** The formatted passage, piece by piece: [trim] only touches what follows
    the last colon. *)
Lemma formatPassage_pieces r :
  formatPassage r
  = passage_head r ++ shown_description r ++ LF ++ lit " URL:"
    ++ trim_end (lit " " ++ url_part r).
Proof.
  assert (E : formatPassage r
              = trim_end ((lit "Title: " ++ shown_title r ++ LF ++ lit " Description: "
                           ++ shown_description r ++ LF ++ lit " URL")
                          ++ 58%N :: lit " " ++ url_part r)).
  { rewrite <- !app_assoc. reflexivity. }
  rewrite E, trim_end_after_char by reflexivity.
  unfold passage_head. rewrite <- !app_assoc. reflexivity.
Qed.

Lemma shown_title_length r : (1 <= length (shown_title r) <= MAX_TITLE_CHARS)%nat.
Proof.
  unfold shown_title. rewrite truncate_take, length_take.
  assert (1 <= length (or_else (title r) (lit "Untitled")))%nat.
  { destruct (title r) as [[| c t] |]; simpl; lia. }
  unfold MAX_TITLE_CHARS. lia.
Qed.

Lemma passage_head_length r :
  length (passage_head r) = (22 + length (shown_title r))%nat.
Proof. unfold passage_head. rewrite !length_app. simpl. lia. Qed.

Lemma passage_of_pieces r :
  passage_of r
  = passage_head r
    ++ take (MAX_PASSAGE_CHARS - length (passage_head r))
         (shown_description r ++ LF ++ lit " URL:"
          ++ trim_end (lit " " ++ url_part r)).
Proof.
  unfold passage_of. rewrite truncate_take, formatPassage_pieces, take_app.
  rewrite take_ge; [reflexivity |].
  rewrite passage_head_length. pose proof (shown_title_length r).
  unfold MAX_PASSAGE_CHARS, MAX_TITLE_CHARS in *. lia.
Qed.

(** X6.  The title is shown with at most 200 code units, so the text before
    the description has at most 222, and at least the first 3778 code units
    of the description always reach the judge. *)
Theorem passage_keeps_description_start (r : SearchResult) :
  (length (passage_head r) <= 222)%nat
  /\ exists rest,
       passage_of r
       = passage_head r ++ take 3778 (or_else (description r) []) ++ rest.
Proof.
  pose proof (shown_title_length r) as Ht.
  pose proof (passage_head_length r) as Hh.
  unfold MAX_TITLE_CHARS in Ht. split; [lia |].
  rewrite passage_of_pieces.
  set (m := (MAX_PASSAGE_CHARS - length (passage_head r))%nat).
  assert (Hm : (3778 <= m)%nat) by (unfold m, MAX_PASSAGE_CHARS; lia).
  rewrite take_app.
  exists (drop 3778 (take m (shown_description r))
          ++ take (m - length (shown_description r))
               (LF ++ lit " URL:" ++ trim_end (lit " " ++ url_part r))).
  assert (E : take 3778 (or_else (description r) [])
              = take 3778 (take m (shown_description r))).
  { unfold shown_description. rewrite truncate_take, !take_take. f_equal.
    unfold MAX_PASSAGE_CHARS in *. lia. }
  rewrite E, (app_assoc (take 3778 _)), take_drop. reflexivity.
Qed.

(** X7.  A description of 3977 code units or more fills the passage on its
    own: the passage is the text before the description followed by the
    description, cut at 4000, and nothing of the URL reaches the judge. *)
Theorem long_description_hides_url (r : SearchResult) :
  (3977 <= length (or_else (description r) []))%nat ->
  passage_of r
  = take MAX_PASSAGE_CHARS (passage_head r ++ or_else (description r) [])
  /\ forall r', title r' = title r -> description r' = description r ->
       passage_of r' = passage_of r.
Proof.
  intros Hlen.
  assert (E : forall r0, title r0 = title r -> description r0 = description r ->
     passage_of r0
     = take MAX_PASSAGE_CHARS (passage_head r ++ or_else (description r) [])).
  { intros r0 Et Ed. rewrite passage_of_pieces.
    assert (Eh : passage_head r0 = passage_head r)
      by (unfold passage_head, shown_title; rewrite Et; reflexivity).
    assert (Es : shown_description r0 = take MAX_PASSAGE_CHARS (or_else (description r) []))
      by (unfold shown_description; rewrite Ed; apply truncate_take).
    rewrite Eh, Es.
    pose proof (shown_title_length r) as Ht. pose proof (passage_head_length r) as Hh.
    unfold MAX_TITLE_CHARS, MAX_PASSAGE_CHARS in *.
    rewrite (take_app (passage_head r)).
    rewrite (take_ge (passage_head r)) by lia. f_equal.
    rewrite take_app_le by (rewrite length_take; lia).
    rewrite take_take. f_equal. lia. }
  split; [apply E; reflexivity |].
  intros r' Et Ed. rewrite (E r' Et Ed). symmetry. apply E; reflexivity.
Qed.

Lemma long_description_hides_url_witness :
  passage_of long_result
  = take MAX_PASSAGE_CHARS
      (passage_head long_result ++ or_else (description long_result) []).
Proof.
  refine (proj1 (long_description_hides_url long_result _)).
  apply Nat.leb_le. vm_compute. reflexivity.
Defined.

End PassageMore.

(** ** Dataset scorer: the aggregates *)

Section ScorerMore.

Variable generateText : list jsstring -> jsstring -> GenOutcome * Q.

Local Abbreviation gen := generateText.

(** The result of the loop is the aggregate of its judgements. *)
Lemma scoreDataset_loop_aggregate query todo i acc log :
  fst (scoreDataset_loop gen query i todo acc log)
  = aggregate i acc (judgements gen query todo log).
Proof.
  revert i acc log. induction todo as [| r todo IH]; intros i acc log; [reflexivity |].
  rewrite judgements_cons.
  change (scoreDataset_loop gen query i (r :: todo) acc log)
    with (let '(acc', log') := scoreDataset_step gen query i r acc log in
          scoreDataset_loop gen query (S i) todo acc' log').
  rewrite scoreDataset_step_eq. lazy beta iota zeta. rewrite IH. reflexivity.
Qed.

Lemma scoreDataset_aggregate query results log :
  fst (scoreDataset gen query results log)
  = aggregate 0 no_scores (judgements gen query (take EVAL_DEPTH results) log).
Proof. apply scoreDataset_loop_aggregate. Qed.

Lemma judgements_grades query todo log :
  Forall (fun one => is_grade (score one) = true) (judgements gen query todo log).
Proof.
  revert log. induction todo as [| r todo IH]; intros log; [constructor |].
  rewrite judgements_cons. constructor; [apply scoreOne_grade | apply IH].
Qed.

(** *** The aggregate, field by field *)

Lemma aggregate_perDoc i acc js :
  perDoc (aggregate i acc js) = perDoc acc ++ entries i js.
Proof.
  revert i acc. induction js as [| one js IH]; intros i acc; cbn [aggregate].
  - rewrite app_nil_r. reflexivity.
  - rewrite IH, entries_cons. cbn [record_one perDoc].
    rewrite <- app_assoc. reflexivity.
Qed.

Lemma aggregate_errors i acc js :
  errors (aggregate i acc js) = errors acc + count_sentinels js.
Proof.
  revert i acc. induction js as [| one js IH]; intros i acc;
    cbn [aggregate count_sentinels]; [lia |].
  rewrite IH. cbn [record_one errors]. lia.
Qed.

Lemma aggregate_total i acc js :
  total (aggregate i acc js) = total acc + sum_scores (entries i js).
Proof.
  revert i acc. induction js as [| one js IH]; intros i acc;
    cbn [aggregate]; [unfold entries; simpl; lia |].
  rewrite IH, entries_cons. cbn [record_one total].
  change (sum_scores (?pd :: ?l)) with (pd_score pd + sum_scores l).
  cbn [pd_score]. lia.
Qed.

Lemma aggregate_duration i acc js :
  (ds_durationMs (aggregate i acc js) == ds_durationMs acc + sum_elapsed js)%Q.
Proof.
  revert i acc. induction js as [| one js IH]; intros i acc; cbn [aggregate].
  - change (sum_elapsed []) with 0%Q. ring.
  - rewrite IH. cbn [record_one ds_durationMs].
    change (sum_elapsed (one :: js)) with (durationMs one + sum_elapsed js)%Q. ring.
Qed.

Lemma aggregate_counts i acc js g :
  all_grades_counted (counts acc) ->
  counts (aggregate i acc js) !! g
  = (fun c => c + tally g (entries i js)) <$> (counts acc !! g).
Proof.
  revert i acc. induction js as [| one js IH]; intros i acc Hall; cbn [aggregate].
  - change (entries i []) with (@nil PerDoc). cbn [tally].
    destruct (counts acc !! g); simpl; [f_equal; lia | reflexivity].
  - destruct (Hall (recorded one) (recorded_grade one)) as [c Hc].
    rewrite IH.
    + rewrite entries_cons. cbn [record_one counts tally pd_score]. rewrite Hc.
      cbn [default].
      destruct (decide (recorded one = g)) as [<- | Hne].
      * rewrite lookup_insert_eq, Hc, Z.eqb_refl. simpl. f_equal. lia.
      * rewrite lookup_insert_ne by exact Hne.
        apply Z.eqb_neq in Hne. rewrite Hne.
        destruct (counts acc !! g); simpl; [f_equal; lia | reflexivity].
    + intros g' Hg'. cbn [record_one counts].
      destruct (decide (recorded one = g')) as [<- | Hne].
      * rewrite lookup_insert_eq. eauto.
      * rewrite lookup_insert_ne by exact Hne. apply Hall, Hg'.
Qed.

Lemma entries_grades i js :
  Forall (fun pd => is_grade (pd_score pd) = true) (entries i js).
Proof.
  apply Forall_forall. intros pd Hin. apply list_elem_of_lookup in Hin as [k Hk].
  apply entries_lookup in Hk as (one & _ & ->). apply recorded_grade.
Qed.

Lemma entries_length i js : length (entries i js) = length js.
Proof. unfold entries. apply length_imap. Qed.

(** The four tallies cover the entries, and weigh the total. *)
Lemma tally_cover docs :
  Forall (fun pd => is_grade (pd_score pd) = true) docs ->
  tally 0 docs + tally 1 docs + tally 2 docs + tally 3 docs = Z.of_nat (length docs)
  /\ sum_scores docs = tally 1 docs + 2 * tally 2 docs + 3 * tally 3 docs
  /\ (forall g, 0 <= tally g docs).
Proof.
  induction 1 as [| pd docs Hg _ IH].
  - repeat split; simpl; intros; lia.
  - destruct IH as (IH1 & IH2 & IH3).
    change (sum_scores (pd :: docs)) with (pd_score pd + sum_scores docs).
    cbn [tally length]. rewrite Nat2Z.inj_succ.
    split; [| split].
    + destruct (is_grade_cases _ Hg) as [-> | [-> | [-> | ->]]]; simpl; lia.
    + destruct (is_grade_cases _ Hg) as [-> | [-> | [-> | ->]]]; simpl; lia.
    + intros g. specialize (IH3 g). destruct (pd_score pd =? g); lia.
Qed.

Lemma foldl_add_sum a (l : list Z) : foldl Z.add a l = a + foldr Z.add 0 l.
Proof.
  revert a. induction l as [| x l IH]; intros a; simpl; [lia | rewrite IH; lia].
Qed.

Lemma foldr_add_perm (l l' : list Z) :
  l ≡ₚ l' -> foldr Z.add 0 l = foldr Z.add 0 l'.
Proof. induction 1; simpl; lia. Qed.

(** A counter map with the four grade keys, written out. *)
Lemma four_counters (m : gmap Z Z) (t : Z -> Z) :
  (forall g, m !! g = if is_grade g then Some (t g) else None) ->
  m = <[0 := t 0]> (<[1 := t 1]> (<[2 := t 2]> (<[3 := t 3]> ∅))).
Proof.
  intros H. apply map_eq. intros g. rewrite H, !lookup_insert, lookup_empty.
  unfold is_grade.
  repeat (case_decide; [subst g; reflexivity |]).
  destruct ((0 <=? g) && (g <=? 3)) eqn:E; [lia | reflexivity].
Qed.

Lemma four_counters_sum (t0 t1 t2 t3 : Z) :
  foldl Z.add 0
    (map snd (map_to_list (<[0 := t0]> (<[1 := t1]> (<[2 := t2]> (<[3 := t3]> (∅ : gmap Z Z)))))))
  = t0 + t1 + t2 + t3.
Proof.
  rewrite foldl_add_sum.
  assert (P : map_to_list (<[0 := t0]> (<[1 := t1]> (<[2 := t2]> (<[3 := t3]> (∅ : gmap Z Z)))))
              ≡ₚ [(0, t0); (1, t1); (2, t2); (3, t3)]).
  { rewrite map_to_list_insert by reflexivity.
    rewrite map_to_list_insert by reflexivity.
    rewrite map_to_list_insert by reflexivity.
    rewrite map_to_list_insert by reflexivity.
    rewrite map_to_list_empty. reflexivity. }
  rewrite (foldr_add_perm _ (map snd [(0, t0); (1, t1); (2, t2); (3, t3)]))
    by (apply fmap_Permutation, P).
  simpl. lia.
Qed.

Lemma entries_scores i js :
  Forall (fun one => is_grade (score one) = true) js ->
  entries i js = imap (fun k one => {| index := i + k; pd_score := score one |}) js.
Proof.
  intros H. unfold entries. apply imap_ext. intros k one Hk. simpl. f_equal.
  apply recorded_score. rewrite Forall_forall in H. apply H.
  apply list_elem_of_lookup. eauto.
Qed.

(** X8.  [scoreOne] only returns grades, so the range guard of
    [scoreDataset] never changes a score: entry k of [perDoc] holds index k
    and the very score [scoreOne] returned for item k, and the labels
    handed to the metrics engine are these scores in rank order. *)
Theorem perDoc_holds_judgement_scores (query : jsstring)
    (results : list SearchResult) (log : list jsstring) :
  let d := fst (scoreDataset gen query results log) in
  let js := judgements gen query (take EVAL_DEPTH results) log in
  Forall (fun one => is_grade (score one) = true) js
  /\ perDoc d = imap (fun k one => {| index := k; pd_score := score one |}) js
  /\ labels d = map score js.
Proof.
  cbv zeta. pose proof (judgements_grades query (take EVAL_DEPTH results) log) as Hg.
  split; [exact Hg |]. split.
  - destruct (scoreDataset_spec gen query results log) as (_ & -> & _).
    apply entries_scores, Hg.
  - rewrite labels_in_rank_order. apply list_eq. intros k.
    rewrite !list_lookup_fmap.
    destruct (judgements gen query (take EVAL_DEPTH results) log !! k) as [one |] eqn:E;
      [| reflexivity].
    simpl. f_equal. apply recorded_score. rewrite Forall_forall in Hg. apply Hg.
    apply list_elem_of_lookup. eauto.
Qed.

(** X9.  The aggregates agree with [perDoc]: the histogram has exactly the
    keys 0, 1, 2, 3 and counts the entries of each grade; the number of
    documents [makeFeedback] reports is min(len(results), EVAL_DEPTH); the
    total is the sum of the recorded grades, that is
    c1 + 2 c2 + 3 c3, and lies between 0 and 3 times that number. *)
Theorem histogram_and_total (query : jsstring) (results : list SearchResult)
    (log : list jsstring) :
  let d := fst (scoreDataset gen query results log) in
  (forall g, counts d !! g = if is_grade g then Some (tally g (perDoc d)) else None)
  /\ docs_scored d = Z.of_nat (Nat.min (length results) EVAL_DEPTH)
  /\ total d = sum_scores (perDoc d)
  /\ total d = tally 1 (perDoc d) + 2 * tally 2 (perDoc d) + 3 * tally 3 (perDoc d)
  /\ 0 <= total d <= 3 * docs_scored d.
Proof.
  cbv zeta. rewrite scoreDataset_aggregate.
  set (js := judgements gen query (take EVAL_DEPTH results) log).
  assert (Hdoc : perDoc (aggregate 0 no_scores js) = entries 0 js)
    by (rewrite aggregate_perDoc; reflexivity).
  assert (Hcounts : forall g, counts (aggregate 0 no_scores js) !! g
                     = if is_grade g then Some (tally g (entries 0 js)) else None).
  { intros g. rewrite aggregate_counts.
    - unfold no_scores. cbn [counts]. rewrite !lookup_insert, lookup_empty.
      unfold is_grade.
      repeat (case_decide; [subst g; reflexivity |]).
      destruct ((0 <=? g) && (g <=? 3)) eqn:E; [lia | reflexivity].
    - intros g' Hg'. unfold no_scores. cbn [counts].
      destruct (is_grade_cases g' Hg') as [-> | [-> | [-> | ->]]]; eauto. }
  destruct (tally_cover (entries 0 js) (entries_grades 0 js)) as (Hcover & Hsum & Hpos).
  assert (Hn : docs_scored (aggregate 0 no_scores js)
               = Z.of_nat (Nat.min (length results) EVAL_DEPTH)).
  { unfold docs_scored.
    rewrite (four_counters _ (fun g => tally g (entries 0 js)) Hcounts).
    rewrite four_counters_sum, Hcover, entries_length.
    unfold js. rewrite judgements_length, length_take. f_equal. lia. }
  assert (Ht : total (aggregate 0 no_scores js) = sum_scores (entries 0 js))
    by (rewrite aggregate_total; reflexivity).
  rewrite Hdoc, Hn, Ht. split; [exact Hcounts |]. split; [reflexivity |].
  split; [reflexivity |]. split; [exact Hsum |].
  rewrite <- Hn. unfold docs_scored.
  rewrite (four_counters _ (fun g => tally g (entries 0 js)) Hcounts), four_counters_sum.
  pose proof (Hpos 0). pose proof (Hpos 1). pose proof (Hpos 2). pose proof (Hpos 3). lia.
Qed.

Lemma count_sentinels_bounds js :
  0 <= count_sentinels js <= Z.of_nat (length js)
  /\ (count_sentinels js = 0 <-> Forall (fun one => has_sentinel one = false) js).
Proof.
  induction js as [| one js (IHb & IHz)]; cbn [count_sentinels length].
  - split; [lia |]. split; [constructor | reflexivity].
  - rewrite Nat2Z.inj_succ. destruct (has_sentinel one) eqn:E.
    + split; [lia |]. split; [lia |]. intros H. inversion H. congruence.
    + split; [lia |]. rewrite Z.add_0_l, IHz. split.
      * intros H. constructor; assumption.
      * intros H. inversion H. assumption.
Qed.

(** X10.  The error tally of a dataset lies between 0 and the number of
    documents scored, hence is at most EVAL_DEPTH, and it is 0 exactly when
    no judgement carries the failure sentinel. *)
Theorem errors_bounded (query : jsstring) (results : list SearchResult)
    (log : list jsstring) :
  let d := fst (scoreDataset gen query results log) in
  let js := judgements gen query (take EVAL_DEPTH results) log in
  0 <= errors d <= Z.of_nat (length (perDoc d))
  /\ errors d <= Z.of_nat EVAL_DEPTH
  /\ (errors d = 0 <-> Forall (fun one => has_sentinel one = false) js).
Proof.
  cbv zeta. destruct (scoreDataset_spec gen query results log) as (_ & -> & ->).
  rewrite entries_length.
  destruct (count_sentinels_bounds (judgements gen query (take EVAL_DEPTH results) log))
    as (Hb & Hz).
  split; [exact Hb |]. split; [| exact Hz].
  rewrite judgements_length, length_take in Hb. lia.
Qed.

(** X11.  The duration of a dataset is the sum of the times its judge calls
    took, failed calls included, and is not negative when no call reports a
    negative time. *)
Theorem duration_is_sum_of_calls (query : jsstring) (results : list SearchResult)
    (log : list jsstring) :
  let d := fst (scoreDataset gen query results log) in
  let js := judgements gen query (take EVAL_DEPTH results) log in
  (ds_durationMs d == sum_elapsed js)%Q
  /\ ((forall log' prompt, 0 <= snd (gen log' prompt))%Q -> (0 <= ds_durationMs d)%Q).
Proof.
  cbv zeta. rewrite scoreDataset_aggregate.
  assert (E : (ds_durationMs
                 (aggregate 0 no_scores (judgements gen query (take EVAL_DEPTH results) log))
               == sum_elapsed (judgements gen query (take EVAL_DEPTH results) log))%Q).
  { rewrite aggregate_duration. unfold no_scores. cbn [ds_durationMs]. ring. }
  split; [exact E |]. intros Hpos. rewrite E. clear E.
  generalize (take EVAL_DEPTH results). intros todo. revert log.
  induction todo as [| r todo IH]; intros log; [discriminate |].
  rewrite judgements_cons.
  change (sum_elapsed (?one :: ?js)) with (durationMs one + sum_elapsed js)%Q.
  specialize (IH (log ++ [prompt_of query r])).
  assert (0 <= durationMs (fst (scoreOne gen query (passage_of r) log)))%Q.
  { specialize (Hpos log (umbrelaPrompt query (passage_of r))).
    destruct (gen log (umbrelaPrompt query (passage_of r))) as [[text | err] dt] eqn:Eg.
    - rewrite (scoreOne_resolved _ _ _ _ _ _ Eg). exact Hpos.
    - rewrite (scoreOne_rejected _ _ _ _ _ _ Eg). exact Hpos. }
  lra.
Qed.

End ScorerMore.

(** ** Orchestrator: depth, order of calls and independence of the datasets *)

Section OrchestratorMore.

Variable generateText : list jsstring -> jsstring -> GenOutcome * Q.

Local Abbreviation gen := generateText.

(** X12.  An evaluation reads only the first EVAL_DEPTH results of each
    list; it makes at most 2 * EVAL_DEPTH = 20 judge calls, those of the
    first dataset before those of the second. *)
Theorem evaluation_depth_and_calls (this : LLMService) (query : jsstring)
    (A B : list SearchResult) (log : list jsstring) :
  evaluateSearchResults gen this query A B log
  = evaluateSearchResults gen this query (take EVAL_DEPTH A) (take EVAL_DEPTH B) log
  /\ (length (snd (evaluateSearchResults gen this query A B log)) - length log
      <= 2 * EVAL_DEPTH)%nat
  /\ snd (evaluateSearchResults gen this query A B log)
     = if hasApiKey this
       then log ++ map (prompt_of query) (take EVAL_DEPTH A)
                ++ map (prompt_of query) (take EVAL_DEPTH B)
       else log.
Proof.
  destruct (hasApiKey this) eqn:H.
  - split; [| split].
    + rewrite !(evaluate_with_key gen _ _ _ _ _ H), !take_take, !Nat.min_id.
      reflexivity.
    + rewrite (evaluate_calls gen _ _ _ _ _ H), !length_app, !length_map, !length_take.
      unfold EVAL_DEPTH. lia.
    + apply evaluate_calls, H.
  - rewrite !(evaluate_without_key gen _ _ _ _ _ H). simpl.
    split; [reflexivity |]. split; [lia | reflexivity].
Qed.

Lemma judgements_history_free query todo log log' :
  history_free gen ->
  judgements gen query todo log = judgements gen query todo log'.
Proof.
  intros Hfree. revert log log'. induction todo as [| r todo IH]; intros log log';
    [reflexivity |].
  rewrite !judgements_cons. f_equal; [| apply IH].
  unfold scoreOne, callJudge, mbind, Judged_bind, mret, Judged_ret.
  rewrite (Hfree log log'). destruct (gen log' _) as [[text | err] dt]; reflexivity.
Qed.

Lemma scoreDataset_history_free query results log log' :
  history_free gen ->
  fst (scoreDataset gen query results log) = fst (scoreDataset gen query results log').
Proof.
  intros Hfree. rewrite !scoreDataset_aggregate.
  rewrite (judgements_history_free _ _ log log' Hfree). reflexivity.
Qed.

(** X13.  The report on the first dataset does not depend on the second
    one.  With a judge that looks at the prompt only, the two datasets do
    not interact at all: exchanging them exchanges the two scores. *)
Theorem datasets_do_not_interact (this : LLMService) (query : jsstring)
    (A B B' : list SearchResult) (log : list jsstring) :
  db1 (fst (evaluateSearchResults gen this query A B log))
  = db1 (fst (evaluateSearchResults gen this query A B' log))
  /\ (history_free gen ->
      er_score (db1 (fst (evaluateSearchResults gen this query A B log)))
      = er_score (db2 (fst (evaluateSearchResults gen this query B A log)))
      /\ er_score (db2 (fst (evaluateSearchResults gen this query A B log)))
         = er_score (db1 (fst (evaluateSearchResults gen this query B A log)))).
Proof.
  destruct (hasApiKey this) eqn:H.
  - rewrite !(evaluate_with_key gen _ _ _ _ _ H). cbv zeta. cbn [fst db1 db2 er_score].
    split; [reflexivity |]. intros Hfree.
    split; f_equal; f_equal; apply scoreDataset_history_free, Hfree.
  - rewrite !(evaluate_without_key gen _ _ _ _ _ H). split; [reflexivity |].
    intros _. split; reflexivity.
Qed.

End OrchestratorMore.

Lemma title_judge_history_free : history_free title_judge.
Proof. intros log log' prompt. reflexivity. Qed.

Lemma datasets_do_not_interact_witness :
  let this := new_LLMService (Some (lit "key")) in
  let A := [sample_result "A"; sample_result "B"] in
  let B := [sample_result "C"] in
  er_score (db1 (fst (evaluateSearchResults title_judge this (lit "vercel pricing") A B [])))
  = er_score (db2 (fst (evaluateSearchResults title_judge this (lit "vercel pricing") B A []))).
Proof.
  cbv zeta.
  refine (proj1 (proj2 (datasets_do_not_interact title_judge _ _ _ _ [] _) _)).
  intros log log' prompt. reflexivity.
Defined.

(** ** Upstash provider: [deduplicateByUrl] *)

Section UpstashFacts.

Variable heap : nat -> ScoredResult.

Local Abbreviation url_of := (url_of heap).
Local Abbreviation score_of := (score_of heap).

Lemma urlMap_of_empty : urlMap_of heap ∅ [].
Proof.
  split.
  - intros u _ x Hx. inversion Hx.
  - intros u y H. rewrite lookup_empty in H. discriminate.
Qed.

Lemma first_best_snoc l y x :
  first_best heap l y ->
  (url_of x = url_of y -> (score_of x <= score_of y)%Q) ->
  first_best heap (l ++ [x]) y.
Proof.
  intros (l1 & l2 & -> & H1 & H2) Hx. exists l1, (l2 ++ [x]).
  split; [rewrite <- app_assoc; reflexivity |]. split; [exact H1 |].
  intros z Hz Hu. apply elem_of_app in Hz as [Hz | Hz]; [apply H2; assumption |].
  apply list_elem_of_singleton in Hz as ->. apply Hx, Hu.
Qed.

Lemma first_best_le l y x :
  first_best heap l y -> x ∈ l -> url_of x = url_of y -> (score_of x <= score_of y)%Q.
Proof.
  intros (l1 & l2 & -> & H1 & H2) Hx Hu.
  apply elem_of_app in Hx as [Hx | Hx]; [apply Qlt_le_weak, H1; assumption |].
  apply elem_of_cons in Hx as [-> | Hx]; [apply Qle_refl | apply H2; assumption].
Qed.

Lemma first_best_last l x :
  (forall z, z ∈ l -> url_of z = url_of x -> (score_of z < score_of x)%Q) ->
  first_best heap (l ++ [x]) x.
Proof.
  intros H. exists l, []. split; [reflexivity |]. split; [exact H |].
  intros z Hz. inversion Hz.
Qed.

Lemma urlMap_of_visit urlMap l x :
  urlMap_of heap urlMap l -> urlMap_of heap (urlMap_visit heap urlMap x) (l ++ [x]).
Proof.
  intros [Hnone Hsome]. unfold urlMap_visit.
  assert (Hkeep : forall u y, u <> url_of x -> urlMap !! u = Some y ->
                    url_of y = u /\ first_best heap (l ++ [x]) y).
  { intros u y Hu Hy. destruct (Hsome u y Hy) as [Huy Hb]. split; [exact Huy |].
    apply first_best_snoc; [exact Hb |]. intros E. congruence. }
  assert (Hset :
            (forall z, z ∈ l -> url_of z = url_of x -> (score_of z < score_of x)%Q) ->
            urlMap_of heap (<[url_of x := x]> urlMap) (l ++ [x])).
  { intros Hlt. split.
    - intros u Hu z Hz. apply lookup_insert_None in Hu as [Hu Hne].
      apply elem_of_app in Hz as [Hz | Hz]; [apply (Hnone u Hu z Hz) |].
      apply list_elem_of_singleton in Hz as ->. exact Hne.
    - intros u y Hy. destruct (decide (url_of x = u)) as [<- | Hne].
      + rewrite lookup_insert_eq in Hy. injection Hy as <-.
        split; [reflexivity | apply first_best_last, Hlt].
      + rewrite lookup_insert_ne in Hy by exact Hne. apply Hkeep; [congruence | exact Hy]. }
  destruct (urlMap !! url_of x) as [e |] eqn:He.
  - destruct (Hsome _ _ He) as [Hue Hbe].
    destruct (Qlt_le_dec (score_of e) (score_of x)) as [Hlt | Hle].
    + apply Hset. intros z Hz Hu.
      assert ((score_of z <= score_of e)%Q)
        by (apply (first_best_le l); [exact Hbe | exact Hz | congruence]).
      lra.
    + split.
      * intros u Hu z Hz. apply elem_of_app in Hz as [Hz | Hz];
          [apply (Hnone u Hu z Hz) |].
        apply list_elem_of_singleton in Hz as ->. intros E. congruence.
      * intros u y Hy. destruct (decide (url_of x = u)) as [<- | Hne].
        -- assert (y = e) as -> by congruence. split; [exact Hue |].
           apply first_best_snoc; [exact Hbe | intros _; exact Hle].
        -- apply Hkeep; [congruence | exact Hy].
  - apply Hset. intros z Hz Hu. exfalso.
    apply (Hnone _ He z Hz Hu).
Qed.

Lemma urlMap_of_foldl urlMap l l' :
  urlMap_of heap urlMap l -> urlMap_of heap (foldl (urlMap_visit heap) urlMap l') (l ++ l').
Proof.
  revert urlMap l. induction l' as [| x l' IH]; intros urlMap l H; simpl.
  - rewrite app_nil_r. exact H.
  - replace (l ++ x :: l') with ((l ++ [x]) ++ l') by (rewrite <- app_assoc; reflexivity).
    apply IH, urlMap_of_visit, H.
Qed.

(** After the first loop [urlMap] holds, for each URL, the first of its
    best results. *)
Lemma urlMap_of_results results :
  urlMap_of heap (foldl (urlMap_visit heap) ∅ results) results.
Proof. apply (urlMap_of_foldl ∅ [] results), urlMap_of_empty. Qed.

(** *** The filter *)

Lemma keep_first_sublist urlMap seenUrls l :
  keep_first heap urlMap seenUrls l `sublist_of` l.
Proof.
  revert seenUrls. induction l as [| x l IH]; intros seenUrls; simpl; [constructor |].
  destruct (decide (url_of x ∈ seenUrls)); [apply sublist_cons, IH |].
  destruct (urlMap !! url_of x) as [y |]; [| apply sublist_cons, IH].
  destruct (decide (y = x)); [apply sublist_skip, IH | apply sublist_cons, IH].
Qed.

Lemma keep_first_kept urlMap seenUrls l y :
  y ∈ keep_first heap urlMap seenUrls l ->
  urlMap !! url_of y = Some y /\ (url_of y ∉ seenUrls) /\ (y ∈ l).
Proof.
  revert seenUrls. induction l as [| x l IH]; intros seenUrls; simpl.
  - intros H. inversion H.
  - assert (Hrest : forall seen', seenUrls ⊆ seen' ->
              y ∈ keep_first heap urlMap seen' l ->
              urlMap !! url_of y = Some y /\ (url_of y ∉ seenUrls) /\ (y ∈ x :: l)).
    { intros seen' Hsub H. destruct (IH _ H) as (H1 & H2 & H3).
      split; [exact H1 |]. split; [| right; exact H3]. set_solver. }
    destruct (decide (url_of x ∈ seenUrls)) as [Hs | Hs]; [apply Hrest; set_solver |].
    destruct (urlMap !! url_of x) as [z |] eqn:Ez; [| apply Hrest; set_solver].
    destruct (decide (z = x)) as [-> | Hne]; [| apply Hrest; set_solver].
    intros H. apply elem_of_cons in H as [-> | H].
    + split; [exact Ez |]. split; [exact Hs | left].
    + apply (Hrest ({[url_of x]} ∪ seenUrls)); [set_solver | exact H].
Qed.

Lemma keep_first_NoDup urlMap seenUrls l :
  NoDup (url_of <$> keep_first heap urlMap seenUrls l).
Proof.
  revert seenUrls. induction l as [| x l IH]; intros seenUrls; simpl; [constructor |].
  destruct (decide (url_of x ∈ seenUrls)); [apply IH |].
  destruct (urlMap !! url_of x) as [z |]; [| apply IH].
  destruct (decide (z = x)) as [-> | Hne]; [| apply IH].
  rewrite fmap_cons. apply NoDup_cons. split; [| apply IH].
  intros Hin. apply list_elem_of_fmap in Hin as (y & Hu & Hy).
  apply keep_first_kept in Hy as (_ & Hnot & _). apply Hnot. set_solver.
Qed.

Lemma keep_first_covers urlMap seenUrls l y :
  urlMap !! url_of y = Some y -> y ∈ l -> url_of y ∉ seenUrls ->
  y ∈ keep_first heap urlMap seenUrls l.
Proof.
  intros Hy. revert seenUrls. induction l as [| x l IH]; intros seenUrls Hin Hs.
  - inversion Hin.
  - simpl. destruct (decide (x = y)) as [-> | Hxy].
    + destruct (decide (url_of y ∈ seenUrls)); [contradiction |].
      rewrite Hy. destruct (decide (y = y)); [left | contradiction].
    + assert (Hl : y ∈ l) by (apply elem_of_cons in Hin as [-> | Hin]; [contradiction | exact Hin]).
      destruct (decide (url_of x ∈ seenUrls)); [apply IH; assumption |].
      destruct (urlMap !! url_of x) as [z |] eqn:Ez; [| apply IH; assumption].
      destruct (decide (z = x)) as [-> | Hne]; [| apply IH; assumption].
      right. apply IH; [exact Hl |].
      intros Hu. apply elem_of_union in Hu as [Hu | Hu]; [| contradiction].
      apply elem_of_singleton in Hu. rewrite Hu in Hy. congruence.
Qed.

Lemma keep_first_all urlMap seenUrls l :
  (forall x, x ∈ l -> urlMap !! url_of x = Some x) ->
  NoDup (url_of <$> l) ->
  (forall x, x ∈ l -> url_of x ∉ seenUrls) ->
  keep_first heap urlMap seenUrls l = l.
Proof.
  revert seenUrls. induction l as [| x l IH]; intros seenUrls Hm Hnd Hs; [reflexivity |].
  simpl. rewrite fmap_cons in Hnd. apply NoDup_cons in Hnd as [Hx Hnd].
  destruct (decide (url_of x ∈ seenUrls)) as [Hin | _].
  - exfalso. apply (Hs x); [left | exact Hin].
  - rewrite (Hm x) by left. destruct (decide (x = x)); [| contradiction].
    f_equal. apply IH.
    + intros z Hz. apply Hm. right. exact Hz.
    + exact Hnd.
    + intros z Hz Hu. apply elem_of_union in Hu as [Hu | Hu].
      * apply elem_of_singleton in Hu. apply Hx. rewrite <- Hu.
        apply list_elem_of_fmap_2, Hz.
      * apply (Hs z); [right; exact Hz | exact Hu].
Qed.

Lemma first_best_elem l y : first_best heap l y -> y ∈ l.
Proof. intros (l1 & l2 & -> & _). apply elem_of_app. right. left. Qed.

Lemma deduplicateByUrl_sublist_NoDup (results : list nat) :
  (deduplicateByUrl heap results `sublist_of` results)
  /\ NoDup (url_of <$> deduplicateByUrl heap results).
Proof.
  unfold deduplicateByUrl. split; [apply keep_first_sublist | apply keep_first_NoDup].
Qed.

(** X14.  [deduplicateByUrl] only removes results: what it returns is a
    subsequence of its input, in the input's order, and no two results of
    it have the same URL (a missing URL counts as the empty one). *)
Theorem deduplicateByUrl_distinct_subsequence (results : list nat) :
  (deduplicateByUrl heap results `sublist_of` results)
  /\ NoDup (url_of <$> deduplicateByUrl heap results).
Proof. apply deduplicateByUrl_sublist_NoDup. Qed.

(** X15.  For each URL of the input [deduplicateByUrl] keeps the result
    with the highest score, and the first such result when several have
    it: every result kept is the first of the best results of its URL, and
    every input result has a kept result with its URL and a score at least
    as high. *)
Theorem deduplicateByUrl_keeps_first_best (results : list nat) :
  (forall y, y ∈ deduplicateByUrl heap results -> first_best heap results y)
  /\ (forall x, x ∈ results ->
        exists y, y ∈ deduplicateByUrl heap results
                  /\ url_of y = url_of x /\ (score_of x <= score_of y)%Q).
Proof.
  unfold deduplicateByUrl. cbv zeta.
  destruct (urlMap_of_results results) as [Hnone Hsome].
  set (urlMap := foldl (urlMap_visit heap) ∅ results) in *.
  split.
  - intros y Hy. apply keep_first_kept in Hy as (Hm & _ & _).
    apply (Hsome _ _ Hm).
  - intros x Hx. destruct (urlMap !! url_of x) as [y |] eqn:Ey.
    + destruct (Hsome _ _ Ey) as [Hu Hb]. exists y. split; [| split].
      * apply keep_first_covers; [rewrite Hu; exact Ey | | set_solver].
        apply first_best_elem, Hb.
      * exact Hu.
      * apply (first_best_le results); [exact Hb | exact Hx | congruence].
    + exfalso. apply (Hnone _ Ey x Hx). reflexivity.
Qed.

Lemma same_url_same_result (l : list nat) x y :
  NoDup (url_of <$> l) -> x ∈ l -> y ∈ l -> url_of x = url_of y -> x = y.
Proof.
  intros Hnd Hx Hy Hu.
  apply list_elem_of_lookup in Hx as [i Hi]. apply list_elem_of_lookup in Hy as [j Hj].
  assert (i = j).
  { apply (NoDup_lookup (url_of <$> l) i j (url_of x) Hnd);
      rewrite list_lookup_fmap; [rewrite Hi | rewrite Hj, Hu]; reflexivity. }
  subst j. congruence.
Qed.

(** X16.  A list whose URLs are pairwise different is returned as it is;
    so [deduplicateByUrl] applied to its own result changes nothing. *)
Theorem deduplicateByUrl_fixpoint (results : list nat) :
  (NoDup (url_of <$> results) -> deduplicateByUrl heap results = results)
  /\ deduplicateByUrl heap (deduplicateByUrl heap results)
     = deduplicateByUrl heap results.
Proof.
  assert (Hfix : forall l, NoDup (url_of <$> l) -> deduplicateByUrl heap l = l).
  { intros l Hnd. unfold deduplicateByUrl. cbv zeta.
    destruct (urlMap_of_results l) as [Hnone Hsome].
    apply keep_first_all; [| exact Hnd | set_solver].
    intros x Hx. destruct (foldl (urlMap_visit heap) ∅ l !! url_of x) as [y |] eqn:Ey.
    - destruct (Hsome _ _ Ey) as [Hu Hb]. f_equal.
      apply (same_url_same_result l); [exact Hnd | | exact Hx | exact Hu].
      apply first_best_elem, Hb.
    - exfalso. apply (Hnone _ Ey x Hx). reflexivity. }
  split; [apply Hfix |]. apply Hfix, deduplicateByUrl_sublist_NoDup.
Qed.

End UpstashFacts.

Lemma deduplicateByUrl_fixpoint_witness :
  deduplicateByUrl sample_heap [1; 0; 3]%nat = [1; 0; 3]%nat.
Proof.
  refine (proj1 (deduplicateByUrl_fixpoint sample_heap [1; 0; 3]%nat) _).
  apply (bool_decide_unpack _). vm_compute. exact I.
Defined.

(** ** Mixedbread provider *)

Section MixedbreadFacts.

Lemma push_unless_seen_seen acc item :
  existsb (fun existing => bool_decide (file_id existing = file_id item)) acc = true
  <-> file_id item ∈ file_id <$> acc.
Proof.
  rewrite existsb_exists, list_elem_of_fmap. split.
  - intros (e & He & Hb). rewrite bool_decide_eq_true in Hb.
    exists e. split; [congruence | apply list_elem_of_In, He].
  - intros (e & Hid & He). exists e. split; [apply list_elem_of_In, He |].
    rewrite bool_decide_eq_true. congruence.
Qed.

(** The accumulator after the items [l]: distinct file ids, the same set of
    file ids as [l], each one carried by its first item in [l]. *)
Lemma uniqueResults_invariant acc l l' :
  NoDup (file_id <$> acc) ->
  acc `sublist_of` l ->
  (forall item, item ∈ l -> file_id item ∈ file_id <$> acc) ->
  (forall kept, kept ∈ acc ->
     exists l1 l2, l = l1 ++ kept :: l2 /\ file_id kept ∉ file_id <$> l1) ->
  let out := foldl push_unless_seen acc l' in
  NoDup (file_id <$> out)
  /\ (out `sublist_of` (l ++ l'))
  /\ (forall item, item ∈ l ++ l' -> file_id item ∈ file_id <$> out)
  /\ (forall kept, kept ∈ out ->
        exists l1 l2, l ++ l' = l1 ++ kept :: l2 /\ file_id kept ∉ file_id <$> l1).
Proof.
  revert acc l. induction l' as [| item l' IH]; intros acc l Hnd Hsub Hall Hfirst.
  - simpl. rewrite app_nil_r. auto.
  - cbv zeta. simpl foldl.
    replace (l ++ item :: l') with ((l ++ [item]) ++ l')
      by (rewrite <- app_assoc; reflexivity).
    apply IH; unfold push_unless_seen;
      destruct (existsb _ acc) eqn:E.
    + exact Hnd.
    + rewrite fmap_app. apply NoDup_app. split; [exact Hnd |]. split.
      * intros u Hu Hin. apply list_elem_of_singleton in Hin. subst u.
        apply push_unless_seen_seen in Hu. congruence.
      * apply NoDup_singleton.
    + apply sublist_inserts_r, Hsub.
    + apply sublist_app; [exact Hsub | reflexivity].
    + intros x Hx. apply elem_of_app in Hx as [Hx | Hx]; [apply Hall, Hx |].
      apply list_elem_of_singleton in Hx as ->. apply push_unless_seen_seen, E.
    + intros x Hx. rewrite fmap_app. apply elem_of_app.
      apply elem_of_app in Hx as [Hx | Hx]; [left; apply Hall, Hx | right].
      apply list_elem_of_singleton in Hx as ->. left.
    + intros kept Hk. destruct (Hfirst kept Hk) as (l1 & l2 & -> & Hn).
      exists l1, (l2 ++ [item]). rewrite <- app_assoc. auto.
    + intros kept Hk. apply elem_of_app in Hk as [Hk | Hk].
      * destruct (Hfirst kept Hk) as (l1 & l2 & -> & Hn).
        exists l1, (l2 ++ [item]). rewrite <- app_assoc. auto.
      * apply list_elem_of_singleton in Hk as ->. exists l, []. split; [reflexivity |].
        intros Hin. apply list_elem_of_fmap in Hin as (x & Hid & Hx).
        apply Hall in Hx. rewrite <- Hid in Hx.
        apply push_unless_seen_seen in Hx. congruence.
Qed.

(** X17.  The deduplication by file keeps, for each [file_id] of the data,
    exactly its first item: the result is a subsequence of the data with
    pairwise different file ids, every item of the data has its file id in
    the result, and no item before a kept one has the kept one's file id. *)
Theorem uniqueResults_first_per_file (data : list Chunk) :
  NoDup (file_id <$> uniqueResults data)
  /\ (uniqueResults data `sublist_of` data)
  /\ (forall item, item ∈ data -> file_id item ∈ file_id <$> uniqueResults data)
  /\ (forall kept, kept ∈ uniqueResults data ->
        exists l1 l2, data = l1 ++ kept :: l2 /\ file_id kept ∉ file_id <$> l1).
Proof.
  apply (uniqueResults_invariant [] [] data).
  - constructor.
  - constructor.
  - intros item H. inversion H.
  - intros kept H. inversion H.
Qed.

(** *** The URL of a chunk *)

Lemma is_extension_head e : is_extension e -> forallb not_slash_dot e = false.
Proof. intros (e' & -> & _). reflexivity. Qed.

(** X18.  The extension pattern cuts a string exactly where its extension
    starts: if the string ends with a dot followed by one or more
    characters other than [/] and [.], that ending is removed and nothing
    else; a string with no such ending is returned unchanged. *)
Theorem strip_extension_removes_the_extension (s : jsstring) :
  (forall p e, s = p ++ e -> is_extension e -> strip_extension s = p)
  /\ ((forall p e, s = p ++ e -> ~ is_extension e) -> strip_extension s = s).
Proof.
  split.
  - intros p. revert s. induction p as [| c p IH]; intros s e -> He.
    + destruct He as (e' & -> & Hne & Hall). simpl. rewrite Hall.
      destruct e' as [| x e']; [contradiction | reflexivity].
    + change ((c :: p) ++ e) with (c :: p ++ e). simpl.
      rewrite forallb_app, (is_extension_head e He), andb_false_r, andb_false_r.
      f_equal. apply (IH _ e); [reflexivity | exact He].
  - induction s as [| c s IH]; intros Hno; [reflexivity |]. simpl.
    destruct ((c =? 46)%N && negb (bool_decide (s = [])) && forallb not_slash_dot s)
      eqn:E.
    + exfalso. apply (Hno [] (c :: s)); [reflexivity |].
      apply andb_prop in E as [E Hall]. apply andb_prop in E as [Hc Hne].
      apply N.eqb_eq in Hc. subst c. exists s. split; [reflexivity |]. split; [| exact Hall].
      apply negb_true_iff, bool_decide_eq_false in Hne. exact Hne.
    + f_equal. apply IH. intros p e -> He. apply (Hno (c :: p) e); [reflexivity | exact He].
Qed.

Lemma startsWith_spec s p : startsWith s p = true <-> exists rest, s = p ++ rest.
Proof.
  revert s. induction p as [| x p IH]; intros s.
  - split; [intros _; exists s; reflexivity | reflexivity].
  - destruct s as [| y s]; simpl.
    + split; [discriminate | intros (rest & H); discriminate].
    + rewrite andb_true_iff, N.eqb_eq, IH. split.
      * intros (-> & rest & ->). exists rest. reflexivity.
      * intros (rest & [= -> ->]). eauto.
Qed.

Lemma indexOf_found s needle i :
  indexOf s needle = Some i ->
  (i <= length s)%nat /\ startsWith (drop i s) needle = true
  /\ forall j, (j < i)%nat -> startsWith (drop j s) needle = false.
Proof.
  revert i. induction s as [| c s IH]; intros i.
  - simpl. destruct (startsWith [] needle) eqn:E; [| discriminate].
    intros [= <-]. split; [simpl; lia |]. split; [exact E | intros j Hj; lia].
  - change (indexOf (c :: s) needle)
      with (if startsWith (c :: s) needle then Some 0%nat else S <$> indexOf s needle).
    destruct (startsWith (c :: s) needle) eqn:E.
    + intros [= <-]. split; [simpl; lia |]. split; [exact E | intros j Hj; lia].
    + destruct (indexOf s needle) as [k |]; [| discriminate].
      intros [= <-]. destruct (IH k eq_refl) as (Hk & Hs & Hmin).
      split; [simpl; lia |]. split; [exact Hs |].
      intros [| j] Hj; [exact E | apply Hmin; lia].
Qed.

Lemma indexOf_none s needle :
  indexOf s needle = None -> forall j, startsWith (drop j s) needle = false.
Proof.
  induction s as [| c s IH].
  - simpl. destruct (startsWith [] needle) eqn:E; [discriminate |].
    intros _ j. rewrite drop_nil. exact E.
  - change (indexOf (c :: s) needle)
      with (if startsWith (c :: s) needle then Some 0%nat else S <$> indexOf s needle).
    destruct (startsWith (c :: s) needle) eqn:E; [discriminate |].
    destruct (indexOf s needle) as [k |] eqn:Ek; [discriminate |].
    intros _ [| j]; [exact E | apply IH; reflexivity].
Qed.

(** A string is its stripped form followed by the extension that was cut
    off, if it had one. *)
Lemma strip_extension_cut s :
  exists ext,
    s = strip_extension s ++ ext
    /\ (is_extension ext
        \/ (ext = [] /\ forall p e, s = p ++ e -> ~ is_extension e)).
Proof.
  induction s as [| c s (ext & IH & Hext)].
  - exists []. split; [reflexivity |]. right. split; [reflexivity |].
    intros p e E (e' & -> & _). destruct p; discriminate.
  - simpl. destruct ((c =? 46)%N && negb (bool_decide (s = [])) && forallb not_slash_dot s)
      eqn:E.
    + exists (c :: s). split; [reflexivity |]. left.
      apply andb_prop in E as [E Hall]. apply andb_prop in E as [Hc Hne].
      apply N.eqb_eq in Hc. subst c. exists s. split; [reflexivity |]. split; [| exact Hall].
      apply negb_true_iff, bool_decide_eq_false in Hne. exact Hne.
    + exists ext. split; [simpl; f_equal; exact IH |].
      destruct Hext as [Hext | [-> Hno]]; [left; exact Hext | right].
      split; [reflexivity |]. intros p e Hs He.
      destruct p as [| x p].
      * simpl in Hs. subst e. destruct He as (e' & [= -> ->] & Hne & Hall).
        rewrite N.eqb_refl, Hall in E. simpl in E.
        apply andb_false_iff in E as [E | E]; [| discriminate].
        apply negb_false_iff, bool_decide_eq_true in E. contradiction.
      * injection Hs as -> ->. apply (Hno p e); [reflexivity | exact He].
Qed.

(** X19.  A chunk without a metadata path gets its URL from its file name:
    the part from the first [/docs/] on, with the extension removed, that
    is, without its ending of a dot and one or more characters other than
    [/] and [.] if it has one, and unchanged if it has none.  The URL then
    starts with [/docs/], since an extension never reaches back over a
    slash; a file name without [/docs/] gives the empty URL. *)
Theorem chunk_url_from_filename (item : Chunk) (anchor name : jsstring) :
  or_else (meta_path item) [] = [] ->
  filename item = Some name ->
  match indexOf name (lit "/docs/") with
  | None => chunk_url item anchor = []
  | Some docsIndex =>
      startsWith (chunk_url item anchor) (lit "/docs/") = true
      /\ (forall j, (j < docsIndex)%nat -> startsWith (drop j name) (lit "/docs/") = false)
      /\ exists ext,
           drop docsIndex name = chunk_url item anchor ++ ext
           /\ (is_extension ext
               \/ (ext = []
                   /\ forall p e, drop docsIndex name = p ++ e -> ~ is_extension e))
  end.
Proof.
  intros Hpath Hname. unfold chunk_url. rewrite Hname.
  assert (Hp : match meta_path item with Some (c :: path) => False | _ => True end).
  { destruct (meta_path item) as [[| c path] |]; simpl in Hpath; [exact I | discriminate | exact I]. }
  destruct (meta_path item) as [[| c path] |]; try contradiction;
    (destruct name as [| c name]; [reflexivity |]);
    (destruct (indexOf (c :: name) (lit "/docs/")) as [i |] eqn:Ei; [| reflexivity]);
    (destruct (indexOf_found _ _ _ Ei) as (_ & Hs & Hmin);
     pose proof Hs as Hs'; apply startsWith_spec in Hs' as (rest & Hrest);
     split; [rewrite Hrest; reflexivity |]; split; [exact Hmin |];
     apply strip_extension_cut).
Qed.

Lemma chunk_url_from_filename_witness :
  startsWith
    (chunk_url {| file_id := lit "f1";
                  filename := Some (lit "/repo/content/docs/guides/intro.v2.mdx");
                  meta_path := None |} [])
    (lit "/docs/") = true.
Proof.
  exact (proj1 (chunk_url_from_filename
                  {| file_id := lit "f1";
                     filename := Some (lit "/repo/content/docs/guides/intro.v2.mdx");
                     meta_path := None |} []
                  (lit "/repo/content/docs/guides/intro.v2.mdx") eq_refl eq_refl)).
Defined.

End MixedbreadFacts.

(** ** Upstash provider: the results of [search] *)

Section UpstashSearchFacts.




End UpstashSearchFacts.

(** ** Orchestrator: short datasets and a judge that is down *)

Section EvaluationEdges.

Variable generateText : list jsstring -> jsstring -> GenOutcome * Q.

Local Abbreviation gen := generateText.

Lemma labels_length query results log :
  length (labels (fst (scoreDataset gen query results log)))
  = Nat.min (length results) EVAL_DEPTH.
Proof.
  rewrite labels_in_rank_order, length_map, judgements_length, length_take. lia.
Qed.

Lemma EU_short_below_ten scores :
  grades scores = true -> (length scores < EVAL_DEPTH)%nat -> (EU scores < 10)%Q.
Proof.
  intros Hg Hlen. pose proof (EU_bounds scores Hg) as [_ Hle].
  destruct (Qlt_le_dec (EU scores) 10) as [Hlt | Hge]; [exact Hlt | exfalso].
  assert (E : (EU scores == 10)%Q) by lra.
  destruct (EU_ten_iff scores Hg) as [Hto _].
  specialize (Hto E (length scores) Hlen).
  unfold grade_at in Hto. rewrite lookup_ge_None_2 in Hto by lia. discriminate.
Qed.

(** X21.  A dataset with fewer than EVAL_DEPTH results cannot reach the
    score 10, whatever the judge answers, and a dataset without results
    scores 0. *)
Theorem short_dataset_below_ten (this : LLMService) (query : jsstring)
    (A B : list SearchResult) (log : list jsstring) :
  hasApiKey this = true ->
  let e := fst (evaluateSearchResults gen this query A B log) in
  ((length A < EVAL_DEPTH)%nat -> (er_score (db1 e) < 10)%Q)
  /\ ((length B < EVAL_DEPTH)%nat -> (er_score (db2 e) < 10)%Q)
  /\ (A = [] -> (er_score (db1 e) == 0)%Q)
  /\ (B = [] -> (er_score (db2 e) == 0)%Q).
Proof.
  intros H. cbv zeta. rewrite (evaluate_with_key gen _ _ _ _ _ H). cbv zeta.
  cbn [fst db1 db2 er_score].
  assert (Hshort : forall R log0, (length R < EVAL_DEPTH)%nat ->
            (EU (labels (fst (scoreDataset gen query (take EVAL_DEPTH R) log0))) < 10)%Q).
  { intros R log0 HR. apply EU_short_below_ten; [apply labels_grades |].
    rewrite labels_length, length_take. lia. }
  assert (Hnil : forall log0,
            (EU (labels (fst (scoreDataset gen query (take EVAL_DEPTH []) log0))) == 0)%Q).
  { intros log0. reflexivity. }
  split; [apply Hshort |]. split; [apply Hshort |].
  split; intros ->; apply Hnil.
Qed.

Lemma judgements_all_rejected query todo log :
  (forall log' prompt, exists err dt, gen log' prompt = (Rejected err, dt)) ->
  Forall (fun one => score one = 0 /\ has_sentinel one = true)
    (judgements gen query todo log).
Proof.
  intros Hdown. revert log. induction todo as [| r todo IH]; intros log; [constructor |].
  rewrite judgements_cons. constructor; [| apply IH].
  destruct (Hdown log (umbrelaPrompt query (passage_of r))) as (err & dt & E).
  rewrite (scoreOne_rejected gen _ _ _ _ _ E). split; reflexivity.
Qed.

Lemma count_sentinels_all js :
  Forall (fun one => score one = 0 /\ has_sentinel one = true) js ->
  count_sentinels js = Z.of_nat (length js)
  /\ Forall (fun g => g = 0) (map recorded js).
Proof.
  induction 1 as [| one js [Hs Hc] _ [IH1 IH2]]; [split; [reflexivity | constructor] |].
  cbn [count_sentinels length map]. rewrite Hc, IH1, Nat2Z.inj_succ. split; [lia |].
  constructor; [| exact IH2]. unfold recorded. rewrite Hs. reflexivity.
Qed.

(** X22.  When every judge call throws, the evaluation does not fall back:
    each dataset gets the score 0, not the sentinel -1, every judged item
    is counted as an error and the total of the grades is 0. *)
Theorem judge_down_scores_zero (this : LLMService) (query : jsstring)
    (A B : list SearchResult) (log : list jsstring) :
  hasApiKey this = true ->
  (forall log' prompt, exists err dt, gen log' prompt = (Rejected err, dt)) ->
  let e := fst (evaluateSearchResults gen this query A B log) in
  (er_score (db1 e) == 0)%Q /\ (er_score (db2 e) == 0)%Q
  /\ forall results log0,
       errors (fst (scoreDataset gen query results log0))
       = Z.of_nat (Nat.min (length results) EVAL_DEPTH)
       /\ total (fst (scoreDataset gen query results log0)) = 0.
Proof.
  intros H Hdown. cbv zeta. rewrite (evaluate_with_key gen _ _ _ _ _ H). cbv zeta.
  cbn [fst db1 db2 er_score].
  assert (Hzero : forall R log0,
            (EU (labels (fst (scoreDataset gen query R log0))) == 0)%Q).
  { intros R log0. apply EU_zero_iff; [apply labels_grades |]. intros i _.
    rewrite labels_in_rank_order.
    destruct (count_sentinels_all _ (judgements_all_rejected query (take EVAL_DEPTH R) log0 Hdown))
      as [_ Hz].
    unfold grade_at.
    destruct (map recorded (judgements gen query (take EVAL_DEPTH R) log0) !! i) as [g |] eqn:Eg;
      [| reflexivity].
    simpl. rewrite Forall_forall in Hz. apply Hz. apply list_elem_of_lookup. eauto. }
  split; [apply Hzero |]. split; [apply Hzero |].
  intros results log0.
  pose proof (judgements_all_rejected query (take EVAL_DEPTH results) log0 Hdown) as Hall.
  destruct (count_sentinels_all _ Hall) as [Hc Hz].
  destruct (scoreDataset_spec gen query results log0) as (_ & _ & ->).
  rewrite Hc, judgements_length, length_take. split; [f_equal; lia |].
  rewrite scoreDataset_aggregate, aggregate_total. unfold no_scores. cbn [total].
  generalize 0%nat. revert Hz.
  generalize (judgements gen query (take EVAL_DEPTH results) log0). intros js Hz.
  induction js as [| one js IH]; intros i; [reflexivity |].
  rewrite entries_cons. inversion Hz as [| ? ? Hone Hrest]; subst.
  change (sum_scores (?pd :: ?l)) with (pd_score pd + sum_scores l). cbn [pd_score].
  rewrite Hone. specialize (IH Hrest (S i)). lia.
Qed.

End EvaluationEdges.

Lemma short_dataset_below_ten_witness :
  (er_score (db1 (fst (evaluateSearchResults flaky_judge
                         (new_LLMService (Some (lit "key"))) (lit "vercel pricing")
                         [sample_result "A"; sample_result "B"] [] []))) < 10)%Q.
Proof.
  refine (proj1 (short_dataset_below_ten flaky_judge
                   (new_LLMService (Some (lit "key"))) (lit "vercel pricing")
                   [sample_result "A"; sample_result "B"] [] [] eq_refl) _).
  unfold EVAL_DEPTH. simpl. lia.
Defined.

Lemma judge_down_scores_zero_witness :
  (er_score (db1 (fst (evaluateSearchResults dead_judge
                         (new_LLMService (Some (lit "key"))) (lit "vercel pricing")
                         [sample_result "A"; sample_result "B"] [sample_result "C"] [])))
   == 0)%Q.
Proof.
  refine (proj1 (judge_down_scores_zero dead_judge
                   (new_LLMService (Some (lit "key"))) (lit "vercel pricing")
                   [sample_result "A"; sample_result "B"] [sample_result "C"] []
                   eq_refl _)).
  intros log' prompt. exists (lit "Error: 503"), 1%Q. reflexivity.
Defined.
